(** * Harmonic analysis engine: chord parsing, function resolution,
      substitution and voice-leading check.

    Shallow embedding of [music_theory_engine.py] (class [MusicTheoryEngine])
    and of the substitution rules of [reharmonization_service.py].

    Modelling conventions.
    - A Python [str] is a Rocq [string]; a literal written here in UTF-8
      (the degree sign, the arrow of the voice-leading message) is its byte
      sequence.  Substring search, concatenation and replacement on such
      byte strings agree with Python's on code points.  Case mapping
      ([lower], [upper]) and whitespace stripping ([strip]) are the ASCII
      ones, so the model agrees with Python on ASCII chord symbols.
    - Python integers are [Z]; [%] with a positive modulus is [Z.modulo].
    - A raised exception is the [Raise] branch of [result]; both
      exceptions of the engine are Python [ValueError]s and are kept apart
      by the place that raises them. *)

From Stdlib Require Import String Ascii List ZArith Bool Lia.
Import ListNotations.
Local Open Scope list_scope.
Local Open Scope string_scope.

(** ** Exceptions and the error monad *)

Inductive exn : Type :=
| InvalidChordSymbol (chord_symbol : string)
    (* ValueError raised by parse_chord when the pattern does not match *)
| NotInList (x : string)
    (* ValueError raised by list.index(x) when x is not an element *)
| IndexError.
    (* list subscript out of range *)

Inductive result (A : Type) : Type :=
| Ok (a : A)
| Raise (e : exn).
Arguments Ok {A} a.
Arguments Raise {A} e.

Definition bind {A B : Type} (m : result A) (k : A -> result B) : result B :=
  match m with
  | Ok a => k a
  | Raise e => Raise e
  end.

Declare Scope result_scope.
Delimit Scope result_scope with result.
Notation "x <- m ;; k" := (bind m (fun x => k))
  (at level 61, m at next level, right associativity) : result_scope.
Local Open Scope result_scope.

Definition is_ok {A : Type} (m : result A) : bool :=
  match m with Ok _ => true | Raise _ => false end.

(** ** Python string primitives *)

Module PyStr.

Definition code (c : ascii) : nat := nat_of_ascii c.

Definition between (lo hi : nat) (c : ascii) : bool :=
  Nat.leb lo (code c) && Nat.leb (code c) hi.

(* str.lower() / str.upper() on one ASCII character *)
Definition lower_char (c : ascii) : ascii :=
  if between 65 90 c then ascii_of_nat (code c + 32) else c.

Definition upper_char (c : ascii) : ascii :=
  if between 97 122 c then ascii_of_nat (code c - 32) else c.

Fixpoint map (f : ascii -> ascii) (s : string) : string :=
  match s with
  | EmptyString => EmptyString
  | String c r => String (f c) (map f r)
  end.

Definition lower : string -> string := map lower_char.
Definition upper : string -> string := map upper_char.

(* [s.startswith(p)] *)
Fixpoint startswith (p s : string) : bool :=
  match p, s with
  | EmptyString, _ => true
  | String _ _, EmptyString => false
  | String a p', String b s' => Ascii.eqb a b && startswith p' s'
  end.

(* [sub in s]: [sub] starts at some position of [s] *)
Fixpoint contains (sub s : string) : bool :=
  startswith sub s ||
  match s with
  | EmptyString => false
  | String _ r => contains sub r
  end.

(* [s.replace(old, new)]: leftmost non-overlapping occurrences.  [skip]
   counts the characters of an occurrence still to be passed over. *)
Fixpoint replace_from (skip : nat) (old new s : string) : string :=
  match s with
  | EmptyString => EmptyString
  | String c r =>
      match skip with
      | S k => replace_from k old new r
      | O =>
          if startswith old s
          then new ++ replace_from (String.length old - 1) old new r
          else String c (replace_from 0 old new r)
      end
  end.

(* With an empty [old] Python puts [new] before every character and at
   the end. *)
Fixpoint interleave (new s : string) : string :=
  match s with
  | EmptyString => new
  | String c r => new ++ String c (interleave new r)
  end.

Definition replace (old new s : string) : string :=
  match old with
  | EmptyString => interleave new s
  | _ => replace_from 0 old new s
  end.

(* str.isspace() on ASCII: TAB, LF, VT, FF, CR, FS, GS, RS, US, SPACE *)
Definition is_space (c : ascii) : bool :=
  between 9 13 c || between 28 32 c.

Fixpoint lstrip (s : string) : string :=
  match s with
  | EmptyString => EmptyString
  | String c r => if is_space c then lstrip r else s
  end.

Fixpoint rstrip (s : string) : string :=
  match s with
  | EmptyString => EmptyString
  | String c r =>
      match rstrip r with
      | EmptyString => if is_space c then EmptyString else String c EmptyString
      | r' => String c r'
      end
  end.

Definition strip (s : string) : string := rstrip (lstrip s).

End PyStr.

(** ** Python list primitives *)

Module PyList.

(* [l.index(x)] on a list of strings *)
Fixpoint index (l : list string) (x : string) : result Z :=
  match l with
  | [] => Raise (NotInList x)
  | y :: r =>
      if String.eqb y x then Ok 0%Z
      else i <- index r x ;; Ok (i + 1)%Z
  end.

(* [l[i]], with Python's negative subscripts *)
Definition getitem {A : Type} (l : list A) (i : Z) : result A :=
  let n := Z.of_nat (List.length l) in
  let j := if (i <? 0)%Z then (i + n)%Z else i in
  if (0 <=? j)%Z && (j <? n)%Z
  then match nth_error l (Z.to_nat j) with
       | Some a => Ok a
       | None => Raise IndexError
       end
  else Raise IndexError.

(* [d.get(k, default)] on a dict given by its items *)
Fixpoint dict_get {K V : Type} (eqb : K -> K -> bool)
    (d : list (K * V)) (k : K) (default : V) : V :=
  match d with
  | [] => default
  | (k', v) :: r => if eqb k' k then v else dict_get eqb r k default
  end.

(* [l.append(x)] and [l.extend(xs)], as the new value of [l] *)
Definition append {A : Type} (l : list A) (x : A) : list A :=
  (l ++ [x])%list.

Definition extend {A : Type} (l xs : list A) : list A :=
  (l ++ xs)%list.

(* [l1 == l2] on lists of strings *)
Fixpoint list_eqb (l1 l2 : list string) : bool :=
  match l1, l2 with
  | [], [] => true
  | x :: r1, y :: r2 => String.eqb x y && list_eqb r1 r2
  | _, _ => false
  end.

(* [l[1:]] *)
Definition slice_from_1 {A : Type} (l : list A) : list A := List.tl l.

End PyList.

(** ** The data model *)

Module ChordQuality.
Inductive t : Type :=
| MAJOR | MINOR | DIMINISHED | AUGMENTED | DOMINANT | MAJOR7 | MINOR7
| HALF_DIMINISHED | DIMINISHED7 | SUSPENDED4 | SUSPENDED2.

Definition value (q : t) : string :=
  match q with
  | MAJOR => "major" | MINOR => "minor" | DIMINISHED => "diminished"
  | AUGMENTED => "augmented" | DOMINANT => "dominant7"
  | MAJOR7 => "major7" | MINOR7 => "minor7"
  | HALF_DIMINISHED => "half_diminished" | DIMINISHED7 => "diminished7"
  | SUSPENDED4 => "suspended4" | SUSPENDED2 => "suspended2"
  end.

Definition eqb (a b : t) : bool :=
  match a, b with
  | MAJOR, MAJOR | MINOR, MINOR | DIMINISHED, DIMINISHED
  | AUGMENTED, AUGMENTED | DOMINANT, DOMINANT | MAJOR7, MAJOR7
  | MINOR7, MINOR7 | HALF_DIMINISHED, HALF_DIMINISHED
  | DIMINISHED7, DIMINISHED7 | SUSPENDED4, SUSPENDED4
  | SUSPENDED2, SUSPENDED2 => true
  | _, _ => false
  end.
End ChordQuality.

Module Function.
Inductive t : Type :=
| TONIC | SUBDOMINANT | DOMINANT | SECONDARY_DOMINANT | DIMINISHED
| SUBSTITUTE.

Definition value (f : t) : string :=
  match f with
  | TONIC => "T" | SUBDOMINANT => "S" | DOMINANT => "D"
  | SECONDARY_DOMINANT => "V/x" | DIMINISHED => "dim"
  | SUBSTITUTE => "sub"
  end.
End Function.

Record Chord : Type := mkChord {
  root : string;
  quality : ChordQuality.t;
  extensions : list string;
  bass : option string;
  function : option Function.t;
  roman_numeral : option string
}.

(** ** The engine *)

Module MusicTheoryEngine.

Import PyStr PyList.

Definition chromatic_notes : list string :=
  ["C"; "C#"; "D"; "D#"; "E"; "F"; "F#"; "G"; "G#"; "A"; "A#"; "B"].

Definition harmonic_functions : list (string * Function.t) :=
  [ ("I", Function.TONIC);
    ("ii", Function.SUBDOMINANT);
    ("iii", Function.TONIC);
    ("IV", Function.SUBDOMINANT);
    ("V", Function.DOMINANT);
    ("vi", Function.TONIC);
    ("vii°", Function.DOMINANT) ].

(** *** The chord pattern
    [^([A-G][#b]?)([^/]*?)(?:/([A-G][#b]?))?$], matched by backtracking
    in the order Python's [re] tries the alternatives. *)

(* [A-G] and [#b] *)
Definition is_note_letter (c : ascii) : bool := between 65 71 c.

Definition is_accidental (c : ascii) : bool :=
  Ascii.eqb c "#" || Ascii.eqb c "b".

(* [$] without MULTILINE: at the end, or before a final newline *)
Definition at_dollar (s : string) : bool :=
  match s with
  | EmptyString => true
  | String c EmptyString => Ascii.eqb c "010"
  | _ => false
  end.

(* [[A-G][#b]?] then the continuation [k] on (the note, the rest): the
   optional accidental is greedy and given back if [k] fails *)
Definition match_note {A : Type} (s : string)
    (k : string -> string -> option A) : option A :=
  match s with
  | EmptyString => None
  | String c r =>
      if is_note_letter c then
        match r with
        | String a r' =>
            if is_accidental a then
              match k (String c (String a EmptyString)) r' with
              | Some m => Some m
              | None => k (String c EmptyString) r
              end
            else k (String c EmptyString) r
        | EmptyString => k (String c EmptyString) r
        end
      else None
  end.

(* [(?:/([A-G][#b]?))?$]: the slash group is tried first, then skipped;
   the result is group 3 *)
Definition match_bass_end (s : string) : option (option string) :=
  let with_bass :=
    match s with
    | String "/" r =>
        match_note r (fun b r' => if at_dollar r' then Some (Some b) else None)
    | _ => None
    end in
  match with_bass with
  | Some m => Some m
  | None => if at_dollar s then Some None else None
  end.

(* [([^/]*?)] then the tail: lazy, one more character at a time; the
   result is (group 2, group 3) *)
Fixpoint match_quality (s : string) : option (string * option string) :=
  match match_bass_end s with
  | Some b => Some (EmptyString, b)
  | None =>
      match s with
      | EmptyString => None
      | String c r =>
          if Ascii.eqb c "/" then None
          else match match_quality r with
               | Some (q, b) => Some (String c q, b)
               | None => None
               end
      end
  end.

(* [re.match(chord_pattern, s)]: groups 1, 2 and 3 *)
Definition chord_pattern (s : string)
    : option (string * string * option string) :=
  match_note s (fun r rest =>
    match match_quality rest with
    | Some (q, b) => Some (r, q, b)
    | None => None
    end).

Definition _determine_chord_quality (quality_str : string)
    : ChordQuality.t :=
  let quality_str := lower quality_str in
  if contains "m7" quality_str then ChordQuality.MINOR7
  else if contains "maj7" quality_str || contains "M7" quality_str
    then ChordQuality.MAJOR7
  else if contains "7" quality_str then ChordQuality.DOMINANT
  else if contains "m" quality_str then ChordQuality.MINOR
  else if contains "dim" quality_str then ChordQuality.DIMINISHED
  else if contains "aug" quality_str || contains "+" quality_str
    then ChordQuality.AUGMENTED
  else if contains "sus4" quality_str then ChordQuality.SUSPENDED4
  else if contains "sus2" quality_str then ChordQuality.SUSPENDED2
  else ChordQuality.MAJOR.

(* [re.findall(r'(9|11|13|#11|b13)', quality_str)]: at each position the
   alternatives in order, then on after the match *)
Definition tension_pattern : list string := ["9"; "11"; "13"; "#11"; "b13"].

Fixpoint findall_tensions (skip : nat) (s : string) : list string :=
  match s with
  | EmptyString => []
  | String _ r =>
      match skip with
      | S k => findall_tensions k r
      | O =>
          match find (fun t => startswith t s) tension_pattern with
          | Some t => t :: findall_tensions (String.length t - 1) r
          | None => findall_tensions 0 r
          end
      end
  end.

Definition _parse_extensions (quality_str : string) : list string :=
  extend [] (findall_tensions 0 quality_str).

Definition parse_chord (chord_symbol : string) : result Chord :=
  match chord_pattern (strip chord_symbol) with
  | None => Raise (InvalidChordSymbol chord_symbol)
  | Some (root, quality_str, bass) =>
      let quality := _determine_chord_quality quality_str in
      let extensions := _parse_extensions quality_str in
      Ok (mkChord root quality extensions bass None None)
  end.

Definition roman_map : list (Z * string) :=
  [ (0, "I"); (2, "II"); (4, "III"); (5, "IV");
    (7, "V"); (9, "VI"); (11, "VII") ]%Z.

Definition _get_roman_numeral (chord : Chord) (key : string)
    : result string :=
  key_index <- index chromatic_notes key ;;
  chord_index <- index chromatic_notes (root chord) ;;
  let interval := ((chord_index - key_index) mod 12)%Z in
  let base_roman := dict_get Z.eqb roman_map interval "bII" in
  match quality chord with
  | ChordQuality.MINOR | ChordQuality.MINOR7 => Ok (lower base_roman)
  | ChordQuality.DIMINISHED => Ok (lower base_roman ++ "°")
  | _ => Ok base_roman
  end.

Definition _determine_function (roman_numeral : string) : Function.t :=
  let base_roman := upper (replace "°" "" roman_numeral) in
  dict_get String.eqb harmonic_functions base_roman Function.SUBSTITUTE.

Definition tensions_map : list (ChordQuality.t * list string) :=
  [ (ChordQuality.MAJOR7, ["9"; "11"; "13"]);
    (ChordQuality.MINOR7, ["9"; "11"; "13"]);
    (ChordQuality.DOMINANT, ["9"; "11"; "13"; "b13"; "#11"]);
    (ChordQuality.HALF_DIMINISHED, ["9"; "11"; "b13"]) ].

Definition _get_available_tensions (chord : Chord) (key : string)
    : list string :=
  dict_get ChordQuality.eqb tensions_map (quality chord) [].

Definition scale_recommendations : list (ChordQuality.t * list string) :=
  [ (ChordQuality.MAJOR7, ["ionian"; "lydian"]);
    (ChordQuality.MINOR7, ["dorian"; "aeolian"]);
    (ChordQuality.DOMINANT, ["mixolydian"; "altered"]);
    (ChordQuality.HALF_DIMINISHED, ["locrian"]) ].

Definition _recommend_scales (chord : Chord) (key : string)
    : list string :=
  dict_get ChordQuality.eqb scale_recommendations (quality chord)
    ["chromatic"].

(* One dict of the list returned by analyze_chord_progression; the field
   [function_value] is its key 'function', which holds [function.value]. *)
Record analysis_entry : Type := mkEntry {
  chord_symbol : string;
  chord : Chord;
  entry_roman_numeral : string;
  function_value : string;
  tensions_available : list string;
  scales_recommended : list string
}.

(* The body of the loop of analyze_chord_progression for one symbol. *)
Definition analyze_one (chord_symbol key : string) : result analysis_entry :=
  chord <- parse_chord chord_symbol ;;
  roman_numeral <- _get_roman_numeral chord key ;;
  let function := _determine_function roman_numeral in
  let chord := mkChord (root chord) (quality chord) (extensions chord)
                 (bass chord) (Some function) (Some roman_numeral) in
  Ok (mkEntry chord_symbol chord roman_numeral (Function.value function)
        (_get_available_tensions chord key) (_recommend_scales chord key)).

(* The loop, carrying the list [analysis] built so far: an exception
   leaves the loop and the list is lost. *)
Fixpoint analyze_loop (analysis : list analysis_entry)
    (chord_symbols : list string) (key : string)
    : result (list analysis_entry) :=
  match chord_symbols with
  | [] => Ok analysis
  | chord_symbol :: rest =>
      entry <- analyze_one chord_symbol key ;;
      analyze_loop (append analysis entry) rest key
  end.

Definition analyze_chord_progression (chord_symbols : list string)
    (key : string) : result (list analysis_entry) :=
  analyze_loop [] chord_symbols key.

Definition suggest_chord_substitutions (chord : Chord) (key : string)
    : result (list string) :=
  let substitutions := [] in
  match quality chord with
  | ChordQuality.DOMINANT =>
      root_index <- index chromatic_notes (root chord) ;;
      tritone_sub <- getitem chromatic_notes ((root_index + 6) mod 12)%Z ;;
      Ok (append substitutions (tritone_sub ++ "7"))
  | q =>
      match function chord with
      | Some Function.TONIC =>
          match q with
          | ChordQuality.MAJOR =>
              Ok (extend substitutions
                    [root chord ++ "6"; root chord ++ "maj9"])
          | _ => Ok substitutions
          end
      | _ => Ok substitutions
      end
  end.

Record voice_leading_report : Type := mkReport {
  is_valid : bool;
  issues : list string;
  suggestions : list string
}.

(* The loop of validate_voice_leading over [range(len(progression) - 1)]:
   [progression[i]] is the head of the remaining list and
   [progression[i + 1]] the element after it. *)
Fixpoint voice_leading_loop (issues suggestions : list string)
    (progression : list string) : result (list string * list string) :=
  match progression with
  | p_i :: ((p_next :: _) as rest) =>
      current <- parse_chord p_i ;;
      next_chord <- parse_chord p_next ;;
      current_root <- index chromatic_notes (root current) ;;
      next_root <- index chromatic_notes (root next_chord) ;;
      let interval := Z.abs (next_root - current_root) in
      if (interval >? 6)%Z
      then voice_leading_loop
             (append issues ("Movimento de fundamental muito amplo: "
                               ++ p_i ++ " → " ++ p_next))
             (append suggestions
                "Considere usar inversão ou acorde de passagem")
             rest
      else voice_leading_loop issues suggestions rest
  | _ => Ok (issues, suggestions)
  end.

Definition validate_voice_leading (progression : list string)
    : result voice_leading_report :=
  r <- voice_leading_loop [] [] progression ;;
  let '(issues, suggestions) := r in
  Ok (mkReport (Nat.eqb (List.length issues) 0) issues suggestions).

End MusicTheoryEngine.

(** ** The substitution rules of the reharmonization service *)

Module ReharmonizationService.

Import PyStr PyList MusicTheoryEngine.

(* One dict of the list returned by _get_chord_substitutions; [sub_chord]
   is its key 'chord' and [sub_type] its key 'type'. *)
Record substitution : Type := mkSubstitution {
  sub_chord : string;
  sub_type : string;
  explanation : string;
  volume_reference : string
}.

Definition _get_tritone_substitution (chord : Chord) : result string :=
  root_index <- index chromatic_notes (root chord) ;;
  let tritone_index := ((root_index + 6) mod 12)%Z in
  tritone_root <- getitem chromatic_notes tritone_index ;;
  Ok (tritone_root ++ "7").

Definition _get_modal_borrowing_options (chord : Chord) (key : string)
    : list substitution :=
  let options := [] in
  if String.eqb (ChordQuality.value (quality chord)) "major"
  then
    let minor_version := root chord ++ "m" in
    append options
      (mkSubstitution minor_version "modal_borrowing"
         ("Empréstimo do modo menor de " ++ key)
         "Ian Guest Vol. 2 p.10-25")
  else options.

Definition _get_secondary_dominant_options (chord : Chord) (key : string)
    : result (list substitution) :=
  let options := [] in
  if existsb (String.eqb (ChordQuality.value (quality chord)))
       ["major"; "minor"]
  then
    i <- index chromatic_notes (root chord) ;;
    let dom_root_index := ((i + 7) mod 12)%Z in
    dom_root <- getitem chromatic_notes dom_root_index ;;
    let secondary_dom := dom_root ++ "7" in
    Ok (append options
          (mkSubstitution secondary_dom "secondary_dominant"
             ("Dominante secundário que resolve em " ++ root chord)
             "Ian Guest Vol. 2 p.26-45"))
  else Ok options.

Definition _get_chord_substitutions (chord : Chord) (key style : string)
    (position total_chords : Z) : result (list substitution) :=
  let substitutions := [] in
  substitutions <-
    (if String.eqb (ChordQuality.value (quality chord)) "dominant7"
     then
       tritone_sub <- _get_tritone_substitution chord ;;
       Ok (append substitutions
             (mkSubstitution tritone_sub "tritone_substitution"
                "Substituto tritonal - mantém tensão dominante com movimento cromático"
                "Ian Guest Vol. 2 p.46-60"))
     else Ok substitutions) ;;
  let modal_substitutes := _get_modal_borrowing_options chord key in
  let substitutions := extend substitutions modal_substitutes in
  if (position <? total_chords - 1)%Z
  then
    secondary_dom <- _get_secondary_dominant_options chord key ;;
    Ok (extend substitutions secondary_dom)
  else Ok substitutions.

(* The loop of _add_secondary_dominants: [chord] is the head of the
   remaining list, [chord_symbols[i + 1]] the element after it; the last
   chord is the one with nothing after it; [res] is the list [result]. *)
Fixpoint add_secondary_dominants_loop (res : list string)
    (chord_symbols : list string) : result (list string) :=
  match chord_symbols with
  | [] => Ok res
  | chord :: rest =>
      match rest with
      | next_symbol :: _ =>
          next_chord <- parse_chord next_symbol ;;
          if existsb (String.eqb (ChordQuality.value (quality next_chord)))
               ["major"; "minor"]
          then
            i <- index chromatic_notes (root next_chord) ;;
            let dom_root_index := ((i + 7) mod 12)%Z in
            dom_root <- getitem chromatic_notes dom_root_index ;;
            add_secondary_dominants_loop
              (extend res [chord; dom_root ++ "7"]) rest
          else add_secondary_dominants_loop (append res chord) rest
      | [] => add_secondary_dominants_loop (append res chord) rest
      end
  end.

Definition _add_secondary_dominants (chord_symbols : list string)
    (key : string) : result (list string) :=
  add_secondary_dominants_loop [] chord_symbols.

(* One dict of the list returned by _generate_complete_alternatives. *)
Record alternative : Type := mkAlternative {
  alt_name : string;
  alt_progression : list string;
  alt_style : string;
  difficulty : string
}.

(* The first loop of _generate_complete_alternatives. *)
Fixpoint tritone_version_loop (tritone_version : list string)
    (chord_symbols : list string) : result (list string) :=
  match chord_symbols with
  | [] => Ok tritone_version
  | chord :: rest =>
      parsed <- parse_chord chord ;;
      if String.eqb (ChordQuality.value (quality parsed)) "dominant7"
      then
        t <- _get_tritone_substitution parsed ;;
        tritone_version_loop (append tritone_version t) rest
      else tritone_version_loop (append tritone_version chord) rest
  end.

Definition _generate_complete_alternatives (chord_symbols : list string)
    (key style : string) : result (list alternative) :=
  let alternatives := [] in
  tritone_version <- tritone_version_loop [] chord_symbols ;;
  let alternatives :=
    if negb (list_eqb tritone_version chord_symbols)
    then append alternatives
           (mkAlternative "Versão com Substitutos Tritonais"
              tritone_version "jazz_sophisticated" "intermediário")
    else alternatives in
  secondary_version <- _add_secondary_dominants chord_symbols key ;;
  let alternatives :=
    if negb (list_eqb secondary_version chord_symbols)
    then append alternatives
           (mkAlternative "Versão com Dominantes Secundários"
              secondary_version "jazz_traditional" "intermediário")
    else alternatives in
  Ok alternatives.

End ReharmonizationService.

(** ** The improvisation consultant *)

Module ImprovisationConsultantService.

Import PyStr PyList MusicTheoryEngine.

(* [theory_engine.modes] of music_theory_engine.py *)
Definition modes : list (string * list Z) :=
  [ ("ionian", [0; 2; 4; 5; 7; 9; 11]);
    ("dorian", [0; 2; 3; 5; 7; 9; 10]);
    ("phrygian", [0; 1; 3; 5; 7; 8; 10]);
    ("lydian", [0; 2; 4; 6; 7; 9; 11]);
    ("mixolydian", [0; 2; 4; 5; 7; 9; 10]);
    ("aeolian", [0; 2; 3; 5; 7; 8; 10]);
    ("locrian", [0; 1; 3; 5; 6; 8; 10]) ]%Z.

(* The loop [for interval in intervals: notes.append(chromatic_notes[
   (root_index + interval) % 12])]. *)
Fixpoint notes_loop (notes : list string) (root_index : Z)
    (intervals : list Z) : result (list string) :=
  match intervals with
  | [] => Ok notes
  | interval :: rest =>
      let note_index := ((root_index + interval) mod 12)%Z in
      note <- getitem chromatic_notes note_index ;;
      notes_loop (append notes note) root_index rest
  end.

Definition _get_scale_notes (root mode : string) : result (list string) :=
  root_index <- index chromatic_notes root ;;
  let mode_intervals :=
    dict_get String.eqb modes mode [0; 2; 4; 5; 7; 9; 11]%Z in
  notes_loop [] root_index mode_intervals.

Definition _get_avoid_notes (chord : Chord) : result (list string) :=
  let avoid_notes := [] in
  if String.eqb (ChordQuality.value (quality chord)) "major7"
  then
    root_index <- index chromatic_notes (root chord) ;;
    let avoid_index := ((root_index + 5) mod 12)%Z in
    note <- getitem chromatic_notes avoid_index ;;
    Ok (append avoid_notes note)
  else Ok avoid_notes.

Definition _get_strong_notes (chord : Chord) : result (list string) :=
  let strong_notes := [root chord] in
  root_index <- index chromatic_notes (root chord) ;;
  let value := ChordQuality.value (quality chord) in
  strong_notes <-
    (if existsb (String.eqb value) ["major"; "major7"]
     then
       let third_index := ((root_index + 4) mod 12)%Z in
       note <- getitem chromatic_notes third_index ;;
       Ok (append strong_notes note)
     else if existsb (String.eqb value) ["minor"; "minor7"]
     then
       let third_index := ((root_index + 3) mod 12)%Z in
       note <- getitem chromatic_notes third_index ;;
       Ok (append strong_notes note)
     else Ok strong_notes) ;;
  if contains "7" value
  then
    let seventh_index :=
      if String.eqb value "major7"
      then ((root_index + 11) mod 12)%Z
      else ((root_index + 10) mod 12)%Z in
    note <- getitem chromatic_notes seventh_index ;;
    Ok (append strong_notes note)
  else Ok strong_notes.

Definition _get_diatonic_approaches (target_note : string)
    : result (list string) :=
  target_index <- index chromatic_notes target_note ;;
  below <- getitem chromatic_notes ((target_index - 2) mod 12)%Z ;;
  above <- getitem chromatic_notes ((target_index + 2) mod 12)%Z ;;
  Ok [below; above].

(* One dict of the list returned by _get_approach_notes. *)
Record approach : Type := mkApproach {
  target : string;
  chromatic_below : string;
  chromatic_above : string;
  diatonic_approaches : list string
}.

Fixpoint approach_notes_loop (approaches : list approach)
    (target_notes : list string) : result (list approach) :=
  match target_notes with
  | [] => Ok approaches
  | target :: rest =>
      target_index <- index chromatic_notes target ;;
      below <- getitem chromatic_notes ((target_index - 1) mod 12)%Z ;;
      above <- getitem chromatic_notes ((target_index + 1) mod 12)%Z ;;
      diatonic <- _get_diatonic_approaches target ;;
      approach_notes_loop
        (append approaches (mkApproach target below above diatonic)) rest
  end.

Definition _get_approach_notes (target_notes : list string)
    : result (list approach) :=
  approach_notes_loop [] target_notes.

(* One dict of the list returned by _map_chord_to_scales; [mapped_chord]
   is its key 'chord'. *)
Record chord_mapping : Type := mkMapping {
  mapped_chord : string;
  primary_scale : string;
  alternative_scales : list string;
  scale_notes : list string;
  avoid_notes : list string;
  strong_notes : list string
}.

(* [scales[0] if scales else "chromatic"] *)
Definition first_scale (scales : list string) : string :=
  match scales with
  | s :: _ => s
  | [] => "chromatic"
  end.

Fixpoint map_chord_to_scales_loop (mapping : list chord_mapping)
    (analysis : list analysis_entry) : result (list chord_mapping) :=
  match analysis with
  | [] => Ok mapping
  | chord_data :: rest =>
      let chord := chord chord_data in
      let scales := scales_recommended chord_data in
      let alternatives :=
        if Nat.ltb 1 (List.length scales) then slice_from_1 scales
        else [] in
      notes <- _get_scale_notes (root chord) (first_scale scales) ;;
      avoid <- _get_avoid_notes chord ;;
      strong <- _get_strong_notes chord ;;
      map_chord_to_scales_loop
        (append mapping
           (mkMapping (chord_symbol chord_data) (first_scale scales)
              alternatives notes avoid strong))
        rest
  end.

Definition _map_chord_to_scales (analysis : list analysis_entry)
    : result (list chord_mapping) :=
  map_chord_to_scales_loop [] analysis.

End ImprovisationConsultantService.

(** ** The harmony analyzer *)

Module HarmonyAnalyzerService.

Import PyStr PyList MusicTheoryEngine.

Definition intervals_map : list (string * list Z) :=
  [ ("major", [4; 7]); ("minor", [3; 7]); ("diminished", [3; 6]);
    ("augmented", [4; 8]); ("major7", [4; 7; 11]);
    ("minor7", [3; 7; 10]); ("dominant7", [4; 7; 10]);
    ("half_diminished", [3; 6; 10]); ("diminished7", [3; 6; 9]) ]%Z.

Definition _get_chord_notes (chord : Chord) : result (list string) :=
  root_index <- index chromatic_notes (root chord) ;;
  let notes := [root chord] in
  let intervals :=
    dict_get String.eqb intervals_map (ChordQuality.value (quality chord))
      [4; 7]%Z in
  ImprovisationConsultantService.notes_loop notes root_index intervals.

(* [notes[i:] + notes[:i]] for [0 <= i <= len(notes)] *)
Definition rotate (i : nat) (notes : list string) : list string :=
  (List.skipn i notes ++ List.firstn i notes)%list.

(* The loop of _get_inversions over [range(len(notes))], from [i]. *)
Fixpoint inversions_loop (inversions : list string) (chord : Chord)
    (notes : list string) (i count : nat) : result (list string) :=
  match count with
  | O => Ok inversions
  | S count' =>
      let inversion_notes := rotate i notes in
      bass_note <- getitem inversion_notes 0%Z ;;
      let name := root chord ++ ChordQuality.value (quality chord) in
      if Nat.eqb i 0
      then inversions_loop (append inversions name) chord notes (S i) count'
      else inversions_loop (append inversions (name ++ "/" ++ bass_note))
             chord notes (S i) count'
  end.

Definition _get_inversions (chord : Chord) : result (list string) :=
  notes <- _get_chord_notes chord ;;
  inversions_loop [] chord notes 0 (List.length notes).

(* [any(chord["function"] == "sub" for chord in analysis)] *)
Definition _has_modal_characteristics (analysis : list analysis_entry)
    : bool :=
  existsb (fun chord => String.eqb (function_value chord) "sub") analysis.

(* The loop of _is_jazz_progression over [range(len(functions) - 2)]. *)
Fixpoint is_jazz_loop (functions : list string) : bool :=
  match functions with
  | f0 :: ((f1 :: f2 :: _) as rest) =>
      if String.eqb f0 "S" && String.eqb f1 "D" && String.eqb f2 "T"
      then true
      else is_jazz_loop rest
  | _ => false
  end.

Definition _is_jazz_progression (analysis : list analysis_entry) : bool :=
  let functions := List.map function_value analysis in
  is_jazz_loop functions.

End HarmonyAnalyzerService.

(** ** The exercise corrector *)

Module ExerciseCorrector.

Import PyStr PyList MusicTheoryEngine.



Definition _normalize_chord_symbol (chord : string) : string :=
  replace "ø" "m7b5" (replace "°" "dim" (lower chord)).

(* The [try] block returns as soon as both symbols parse; the bare
   [except] takes over when either call raises. *)
Definition _is_equivalent_chord (chord1 chord2 : string) : bool :=
  match parse_chord chord1 with
  | Ok parsed1 =>
      match parse_chord chord2 with
      | Ok parsed2 =>
          String.eqb (root parsed1) (root parsed2)
          && ChordQuality.eqb (quality parsed1) (quality parsed2)
      | Raise _ =>
          String.eqb (_normalize_chord_symbol chord1)
            (_normalize_chord_symbol chord2)
      end
  | Raise _ =>
      String.eqb (_normalize_chord_symbol chord1)
        (_normalize_chord_symbol chord2)
  end.

End ExerciseCorrector.

(** ** Vocabulary of the specification *)

Module Spec.

Import PyStr PyList MusicTheoryEngine.

(* A pitch-class root of the chord grammar: an uppercase letter A-G
   optionally followed by # or b (group 1 of the chord pattern). *)
Definition is_pitch_class_root (r : string) : bool :=
  match r with
  | String c EmptyString => is_note_letter c
  | String c (String a EmptyString) => is_note_letter c && is_accidental a
  | _ => false
  end.

(* The suffix begins with a character that the root would take as its
   accidental. *)
Definition begins_accidental (q : string) : bool :=
  match q with
  | String a _ => is_accidental a
  | EmptyString => false
  end.

Definition supported_qualities : list string :=
  [""; "m"; "m7"; "maj7"; "7"; "dim"; "aug"; "+"; "sus4"; "sus2"].

(* Classification by ordered substring precedence: the quality of the
   first pattern of [order] that occurs in the lower-cased suffix, major
   when none occurs. *)
Definition first_match (order : list (string * ChordQuality.t))
    (s : string) : ChordQuality.t :=
  match find (fun entry => contains (fst entry) s) order with
  | Some entry => snd entry
  | None => ChordQuality.MAJOR
  end.

Definition classify_by (order : list (string * ChordQuality.t))
    (quality_str : string) : ChordQuality.t :=
  first_match order (lower quality_str).

(* The order as the specification words it: "m7", then plain "m", then
   "maj7", then "7", then "dim", then "aug"/"+", then "sus4", "sus2". *)
Definition stated_precedence : list (string * ChordQuality.t) :=
  [ ("m7", ChordQuality.MINOR7); ("m", ChordQuality.MINOR);
    ("maj7", ChordQuality.MAJOR7); ("7", ChordQuality.DOMINANT);
    ("dim", ChordQuality.DIMINISHED); ("aug", ChordQuality.AUGMENTED);
    ("+", ChordQuality.AUGMENTED); ("sus4", ChordQuality.SUSPENDED4);
    ("sus2", ChordQuality.SUSPENDED2) ].

(* The order of the tests of _determine_chord_quality: "m7", "maj7",
   "7", "m", "dim", "aug"/"+", "sus4", "sus2". *)
Definition checked_precedence : list (string * ChordQuality.t) :=
  [ ("m7", ChordQuality.MINOR7); ("maj7", ChordQuality.MAJOR7);
    ("7", ChordQuality.DOMINANT); ("m", ChordQuality.MINOR);
    ("dim", ChordQuality.DIMINISHED); ("aug", ChordQuality.AUGMENTED);
    ("+", ChordQuality.AUGMENTED); ("sus4", ChordQuality.SUSPENDED4);
    ("sus2", ChordQuality.SUSPENDED2) ].

(* [resolve(chord, key)]: the two calls of analyze_chord_progression
   that compute the roman numeral and the function of a chord. *)
Definition resolve (chord : Chord) (key : string)
    : result (string * Function.t) :=
  roman_numeral <- _get_roman_numeral chord key ;;
  Ok (roman_numeral, _determine_function roman_numeral).

(* The function table as the specification words it. *)
Definition stated_functions : list (string * Function.t) :=
  [ ("I", Function.TONIC); ("II", Function.SUBDOMINANT);
    ("III", Function.TONIC); ("IV", Function.SUBDOMINANT);
    ("V", Function.DOMINANT); ("VI", Function.TONIC);
    ("VII", Function.DOMINANT) ].

(* The adjacent pairs that the voice-leading rule flags, on a progression
   given with the alphabet index of each root: the raw difference of the
   two indices exceeds 6. *)
Fixpoint flagged (l : list (string * Z)) : list (string * string) :=
  match l with
  | (a, i) :: (((b, j) :: _) as r) =>
      if (Z.abs (j - i) >? 6)%Z then (a, b) :: flagged r else flagged r
  | _ => []
  end.

(* The issue and the suggestion that the check records for a flagged
   pair. *)
Definition issue_of (p : string * string) : string :=
  "Movimento de fundamental muito amplo: " ++ fst p ++ " → " ++ snd p.

Definition suggestion_of (p : string * string) : string :=
  "Considere usar inversão ou acorde de passagem".

(* No name occurs twice in the list. *)
Fixpoint distinct (l : list string) : bool :=
  match l with
  | [] => true
  | x :: r => negb (existsb (String.eqb x) r) && distinct r
  end.

(* The names of the list are entries of the alphabet. *)
Definition in_alphabet (l : list string) : bool :=
  forallb (fun x => existsb (String.eqb x) chromatic_notes) l.

(* The chord is a plain major or minor triad. *)
Definition is_triad (c : Chord) : bool :=
  ChordQuality.eqb (quality c) ChordQuality.MAJOR
  || ChordQuality.eqb (quality c) ChordQuality.MINOR.

(* The symbol parses and its root stands at index [i] of the alphabet. *)
Definition root_at (s : string) (i : Z) : Prop :=
  exists c, parse_chord s = Ok c /\ index chromatic_notes (root c) = Ok i.

(* What is put before the chord [next] when it is not the first. *)
Definition inserted_for (next : string) (ins : list string) : Prop :=
  exists c,
    parse_chord next = Ok c /\
    ((is_triad c = true /\
      exists i d,
        index chromatic_notes (root c) = Ok i /\
        getitem chromatic_notes ((i + 7) mod 12) = Ok d /\
        ins = [d ++ "7"]) \/
     (is_triad c = false /\ ins = [])).

(* The symbol parses to a dominant seventh chord. *)
Definition is_dominant_symbol (s : string) : bool :=
  match parse_chord s with
  | Ok c => ChordQuality.eqb (quality c) ChordQuality.DOMINANT
  | Raise _ => false
  end.

(* The symbol parses to a plain major or minor triad. *)
Definition is_triad_symbol (s : string) : bool :=
  match parse_chord s with
  | Ok c => is_triad c
  | Raise _ => false
  end.



(* The function letter that the analysis gives to a root [d] semitones
   above the key. *)
Definition function_letter (d : Z) : string :=
  match d with
  | 0 => "T"
  | 5 => "S"
  | 7 => "D"
  | _ => "sub"
  end%Z.

(* Three roots in a row stand a fourth above, a fifth above and on the
   key. *)
Fixpoint has_IV_V_I (ds : list Z) : bool :=
  match ds with
  | d0 :: ((d1 :: d2 :: _) as rest) =>
      if (d0 =? 5)%Z && (d1 =? 7)%Z && (d2 =? 0)%Z then true
      else has_IV_V_I rest
  | _ => false
  end.

(* The root is neither the key, its fourth nor its fifth. *)
Definition off_degree (d : Z) : bool :=
  negb (d =? 0)%Z && negb (d =? 5)%Z && negb (d =? 7)%Z.

(* The symbol parses and its root stands [d] semitones above the key. *)
Definition interval_of (key s : string) (d : Z) : Prop :=
  exists c i j,
    parse_chord s = Ok c /\
    index chromatic_notes key = Ok i /\
    index chromatic_notes (root c) = Ok j /\
    d = ((j - i) mod 12)%Z.

End Spec.

(** * Properties *)

Import PyStr PyList MusicTheoryEngine ReharmonizationService Spec.

(** ** Facts on the string primitives *)

Section StringFacts.

Ltac each_char c :=
  destruct c as [[] [] [] [] [] [] [] []]; vm_compute; try reflexivity;
  try discriminate; auto.

Lemma lower_char_idem (c : ascii) :
  lower_char (lower_char c) = lower_char c.
Proof. each_char c. Qed.

Lemma lower_idem (s : string) : lower (lower s) = lower s.
Proof.
  induction s as [|c s IH]; simpl; [reflexivity|].
  unfold lower in *; simpl. now rewrite lower_char_idem, IH.
Qed.

Lemma lower_char_eqb (a b : ascii) :
  Ascii.eqb a b = true -> Ascii.eqb (lower_char a) (lower_char b) = true.
Proof.
  intros H. apply Ascii.eqb_eq in H. subst b. apply Ascii.eqb_refl.
Qed.

Lemma startswith_lower (p s : string) :
  startswith p s = true -> startswith (lower p) (lower s) = true.
Proof.
  revert s. induction p as [|a p IH]; intros [|b s]; simpl;
    try reflexivity; try discriminate.
  intros H. apply andb_true_iff in H as [Hab Hps].
  apply andb_true_iff. split; [now apply lower_char_eqb | now apply IH].
Qed.

(* Lower-casing keeps every occurrence of a substring, lower-cased. *)
Lemma contains_lower (p s : string) :
  contains p s = true -> contains (lower p) (lower s) = true.
Proof.
  induction s as [|b s IH]; intros H.
  - change (startswith p "" || false = true) in H.
    change (startswith (lower p) (lower "") || false = true).
    rewrite orb_false_r in *. now apply startswith_lower.
  - change (startswith p (String b s) || contains p s = true) in H.
    change (startswith (lower p) (lower (String b s))
            || contains (lower p) (lower s) = true).
    apply orb_true_iff in H as [H|H]; apply orb_true_iff.
    + left. now apply startswith_lower.
    + right. now apply IH.
Qed.

Lemma lower_char_not_M (c : ascii) :
  Ascii.eqb "M" (lower_char c) = false.
Proof. each_char c. Qed.

(* A lower-cased string has no capital M, hence no "M7". *)
Lemma contains_M7_lower (s : string) : contains "M7" (lower s) = false.
Proof.
  induction s as [|c s IH]; [reflexivity|].
  change ((Ascii.eqb "M" (lower_char c) && startswith "7" (lower s))
          || contains "M7" (lower s) = false).
  now rewrite lower_char_not_M, IH.
Qed.

End StringFacts.

(** ** Quality classification *)

Section Quality.

(* The classification only looks at the lower-cased suffix. *)
Lemma quality_of_lower (s : string) :
  _determine_chord_quality (lower s) = _determine_chord_quality s.
Proof. unfold _determine_chord_quality. now rewrite lower_idem. Qed.

Lemma quality_m7 (s : string) :
  contains "m7" (lower s) = true ->
  _determine_chord_quality s = ChordQuality.MINOR7.
Proof. intros H. unfold _determine_chord_quality. now rewrite H. Qed.

(* The cascade of tests is the first match in [checked_precedence]. *)
Lemma quality_checked_precedence (s : string) :
  _determine_chord_quality s = classify_by checked_precedence s.
Proof.
  unfold _determine_chord_quality, classify_by, first_match,
    checked_precedence.
  rewrite contains_M7_lower, orb_false_r.
  cbn [find fst snd].
  repeat match goal with
         | |- context [contains ?p (lower s)] =>
             destruct (contains p (lower s)); cbn [orb]; try reflexivity
         end.
Qed.

End Quality.

(** ** The parser on symbols without a slash *)

Section Parser.

Ltac each_char c :=
  destruct c as [[] [] [] [] [] [] [] []]; vm_compute; try reflexivity;
  try discriminate; auto.

Lemma note_letter_not_space (c : ascii) :
  is_note_letter c = true -> is_space c = false.
Proof. each_char c. Qed.

Lemma accidental_not_space (c : ascii) :
  is_accidental c = true -> is_space c = false.
Proof. each_char c. Qed.

Lemma note_letter_cases (c : ascii) :
  is_note_letter c = true ->
  In c ["A"; "B"; "C"; "D"; "E"; "F"; "G"]%char.
Proof. each_char c; intros _; simpl; tauto. Qed.

Lemma accidental_cases (c : ascii) :
  is_accidental c = true -> c = "#"%char \/ c = "b"%char.
Proof. each_char c. Qed.

Lemma rstrip_cons_nonspace (c : ascii) (s : string) :
  is_space c = false -> rstrip (String c s) = String c (rstrip s).
Proof.
  intros Hc. cbn [rstrip]. rewrite Hc. now destruct (rstrip s).
Qed.

Lemma rstrip_idem (s : string) : rstrip (rstrip s) = rstrip s.
Proof.
  induction s as [|c s IH]; [reflexivity|].
  cbn [rstrip]. destruct (rstrip s) as [|c' t] eqn:E.
  - destruct (is_space c) eqn:Hc; [reflexivity|].
    cbn [rstrip]. now rewrite Hc.
  - change (rstrip (String c (String c' t))) with
      (match rstrip (String c' t) with
       | EmptyString =>
           if is_space c then EmptyString else String c EmptyString
       | r' => String c r'
       end).
    now rewrite IH.
Qed.

(* [rstrip] only removes characters at the end. *)
Lemma rstrip_head (s : string) (a : ascii) (t : string) :
  rstrip s = String a t -> exists t', s = String a t'.
Proof.
  destruct s as [|c s]; [discriminate|].
  cbn [rstrip]. destruct (rstrip s); [destruct (is_space c)|];
    intros H; inversion H; subst; eauto.
Qed.

Lemma contains_slash_cons (c : ascii) (s : string) :
  contains "/" (String c s) = Ascii.eqb "/" c || contains "/" s.
Proof.
  change (contains "/" (String c s))
    with ((Ascii.eqb "/" c && true) || contains "/" s).
  now rewrite andb_true_r.
Qed.

Lemma contains_slash_rstrip (s : string) :
  contains "/" s = false -> contains "/" (rstrip s) = false.
Proof.
  induction s as [|c s IH]; [reflexivity|].
  rewrite contains_slash_cons. intros H.
  apply orb_false_iff in H as [Hc Hs]. specialize (IH Hs).
  cbn [rstrip]. destruct (rstrip s) as [|c' t] eqn:E.
  - destruct (is_space c); [reflexivity|].
    rewrite contains_slash_cons, Hc. reflexivity.
  - rewrite contains_slash_cons, Hc. exact IH.
Qed.

(* On a suffix without slash and without white space at its end, the
   lazy group takes everything and the slash group is skipped. *)
Lemma match_quality_plain (q : string) :
  contains "/" q = false -> rstrip q = q ->
  match_quality q = Some (q, None).
Proof.
  induction q as [|c q IH]; [reflexivity|].
  rewrite contains_slash_cons. intros H Hr.
  apply orb_false_iff in H as [Hc Hq].
  assert (Hc' : Ascii.eqb c "/" = false) by now rewrite Ascii.eqb_sym.
  assert (Hq' : rstrip q = q).
  { cbn [rstrip] in Hr. destruct (rstrip q) as [|c' t].
    - destruct (is_space c); [discriminate|]. now inversion Hr.
    - now inversion Hr. }
  assert (Hd : at_dollar (String c q) = false).
  { destruct q as [|c2 q2]; [|reflexivity].
    cbn [rstrip] in Hr. cbn [at_dollar].
    destruct (Ascii.eqb c "010") eqn:E; [|reflexivity].
    apply Ascii.eqb_eq in E. subst c. discriminate. }
  cbn [match_quality]. unfold match_bass_end. rewrite Hd.
  assert (Hs : match String c q with
               | String "/" r =>
                   match_note r (fun b r' =>
                     if at_dollar r' then Some (Some b) else None)
               | _ => None
               end = None).
  { apply Ascii.eqb_neq in Hc'. clear -Hc'.
    destruct c as [[] [] [] [] [] [] [] []]; try reflexivity.
    now elim Hc'. }
  rewrite Hs, Hc', (IH Hq Hq'). reflexivity.
Qed.

Lemma chord_pattern_letter (c : ascii) (q : string) :
  is_note_letter c = true -> begins_accidental q = false ->
  contains "/" q = false -> rstrip q = q ->
  chord_pattern (String c q) = Some (String c EmptyString, q, None).
Proof.
  intros Hc Hb Hs Hr. unfold chord_pattern, match_note. rewrite Hc.
  destruct q as [|a q']; [reflexivity|].
  cbn [begins_accidental] in Hb. rewrite Hb.
  now rewrite (match_quality_plain _ Hs Hr).
Qed.

Lemma chord_pattern_accidental (c a : ascii) (q : string) :
  is_note_letter c = true -> is_accidental a = true ->
  contains "/" q = false -> rstrip q = q ->
  chord_pattern (String c (String a q))
  = Some (String c (String a EmptyString), q, None).
Proof.
  intros Hc Ha Hs Hr. unfold chord_pattern, match_note. rewrite Hc, Ha.
  now rewrite (match_quality_plain _ Hs Hr).
Qed.

(* The parser on root + suffix, for a suffix without slash that the root
   cannot absorb: the root is kept, there is no bass, and quality and
   extensions are read from the suffix stripped at its end. *)
Lemma parse_chord_plain (r q : string) :
  is_pitch_class_root r = true ->
  contains "/" q = false ->
  (String.length r = 1 -> begins_accidental q = false) ->
  parse_chord (r ++ q)
  = Ok (mkChord r (_determine_chord_quality (rstrip q))
          (_parse_extensions (rstrip q)) None None None).
Proof.
  intros Hr Hs Hb.
  destruct r as [|c [|a [|? ?]]]; try discriminate Hr; cbn [is_pitch_class_root] in Hr.
  - specialize (Hb eq_refl).
    assert (Hb' : begins_accidental (rstrip q) = false).
    { destruct (rstrip q) as [|a t] eqn:E; [reflexivity|].
      apply rstrip_head in E as [t' ->]. exact Hb. }
    unfold parse_chord, strip. cbn [String.append lstrip].
    rewrite (note_letter_not_space c Hr).
    rewrite (rstrip_cons_nonspace c q (note_letter_not_space c Hr)).
    rewrite (chord_pattern_letter c (rstrip q) Hr Hb'
               (contains_slash_rstrip q Hs) (rstrip_idem q)).
    reflexivity.
  - apply andb_true_iff in Hr as [Hc Ha].
    unfold parse_chord, strip. cbn [String.append lstrip].
    rewrite (note_letter_not_space c Hc).
    rewrite (rstrip_cons_nonspace c _ (note_letter_not_space c Hc)).
    rewrite (rstrip_cons_nonspace a _ (accidental_not_space a Ha)).
    rewrite (chord_pattern_accidental c a (rstrip q) Hc Ha
               (contains_slash_rstrip q Hs) (rstrip_idem q)).
    reflexivity.
Qed.

End Parser.

(** ** The claims on the parser and the quality classification *)

(** C8. For every pitch-class root [r] (a letter A-G, optionally followed
    by # or b) and every supported quality suffix [q], [parse_chord (r ++ q)]
    succeeds and the chord it returns has root [r]. *)
Theorem parse_keeps_root (r q : string) :
  is_pitch_class_root r = true ->
  In q supported_qualities ->
  exists c, parse_chord (r ++ q) = Ok c /\ root c = r.
Proof.
  intros Hr Hq.
  assert (Hs : contains "/" q = false /\ begins_accidental q = false).
  { unfold supported_qualities in Hq. cbn [In] in Hq.
    repeat (destruct Hq as [<-|Hq]; [split; reflexivity|]).
    contradiction. }
  destruct Hs as [Hs Hb].
  rewrite (parse_chord_plain r q Hr Hs (fun _ => Hb)).
  eexists. split; reflexivity.
Qed.

Lemma parse_keeps_root_witness :
  is_pitch_class_root "Bb" = true /\
  In "maj7" supported_qualities /\
  exists c, parse_chord ("Bb" ++ "maj7") = Ok c /\ root c = "Bb".
Proof.
  split; [reflexivity|]. split; [simpl; tauto|].
  apply (parse_keeps_root "Bb" "maj7"); [reflexivity | simpl; tauto].
Defined.

(** C3, as amended.  The quality of a suffix is the one selected by the
    ordered substring precedence "m7", "maj7", "7", "m", "dim", "aug" or
    "+", "sus4", "sus2" on the lower-cased suffix, major when none occurs;
    and [parse_chord "Cm7"] is a minor-seventh chord. *)
Theorem quality_by_checked_precedence :
  (forall quality_str,
     _determine_chord_quality quality_str
     = classify_by checked_precedence quality_str) /\
  (exists c, parse_chord "Cm7" = Ok c /\ quality c = ChordQuality.MINOR7).
Proof.
  split; [exact quality_checked_precedence|].
  eexists. split; reflexivity.
Qed.

(** C3, as stated, fails on the suffix "maj7": with plain "m" tested before
    "maj7" the suffix would be minor, and the code answers major-seventh. *)
Lemma stated_precedence_fails_on_maj7 :
  _determine_chord_quality "maj7" = ChordQuality.MAJOR7 /\
  classify_by stated_precedence "maj7" = ChordQuality.MINOR /\
  _determine_chord_quality "maj7" <> classify_by stated_precedence "maj7".
Proof.
  split; [reflexivity|]. split; [reflexivity|]. discriminate.
Qed.

(** C10. The classification lower-cases the suffix first: two suffixes
    that agree up to case have the same quality, a suffix that contains
    "M7" is minor-seventh as one that contains "m7", and for every root [r]
    the chord [r ++ "M7"] is parsed as minor-seventh, not major-seventh. *)
Theorem quality_is_case_insensitive :
  (forall s s', lower s = lower s' ->
     _determine_chord_quality s = _determine_chord_quality s') /\
  (forall s, contains "M7" s = true \/ contains "m7" s = true ->
     _determine_chord_quality s = ChordQuality.MINOR7) /\
  (forall r, is_pitch_class_root r = true ->
     exists c, parse_chord (r ++ "M7") = Ok c /\ root c = r /\
               quality c = ChordQuality.MINOR7 /\
               quality c <> ChordQuality.MAJOR7).
Proof.
  split; [|split].
  - intros s s' H. unfold _determine_chord_quality. now rewrite H.
  - intros s [H|H]; apply quality_m7; exact (contains_lower _ _ H).
  - intros r Hr.
    rewrite (parse_chord_plain r "M7" Hr eq_refl (fun _ => eq_refl)).
    eexists. repeat split. discriminate.
Qed.

Lemma quality_is_case_insensitive_witness :
  _determine_chord_quality "M7b13" = ChordQuality.MINOR7 /\
  exists c, parse_chord ("F#" ++ "M7") = Ok c /\ root c = "F#" /\
            quality c = ChordQuality.MINOR7 /\
            quality c <> ChordQuality.MAJOR7.
Proof.
  split.
  - apply (proj1 (proj2 quality_is_case_insensitive) "M7b13").
    left. reflexivity.
  - apply (proj2 (proj2 quality_is_case_insensitive) "F#"). reflexivity.
Defined.

(** ** The claim on tensions and scales *)

(** C9. The tensions and the scales of a chord are looked up by its
    quality alone: a quality that is no key of the table has no tension
    and the one scale "chromatic"; the four qualities of the tables have
    their entries, in the order of the tables. *)
Theorem tensions_and_scales_by_quality (chord : Chord) (key : string) :
  (~ In (quality chord) (List.map fst tensions_map) ->
     _get_available_tensions chord key = []) /\
  (~ In (quality chord) (List.map fst scale_recommendations) ->
     _recommend_scales chord key = ["chromatic"]) /\
  (forall ts, In (quality chord, ts) tensions_map ->
     _get_available_tensions chord key = ts) /\
  (forall ss, In (quality chord, ss) scale_recommendations ->
     _recommend_scales chord key = ss) /\
  (_get_available_tensions chord key, _recommend_scales chord key)
  = match quality chord with
    | ChordQuality.MAJOR7 => (["9"; "11"; "13"], ["ionian"; "lydian"])
    | ChordQuality.MINOR7 => (["9"; "11"; "13"], ["dorian"; "aeolian"])
    | ChordQuality.DOMINANT =>
        (["9"; "11"; "13"; "b13"; "#11"], ["mixolydian"; "altered"])
    | ChordQuality.HALF_DIMINISHED => (["9"; "11"; "b13"], ["locrian"])
    | ChordQuality.MAJOR | ChordQuality.MINOR | ChordQuality.DIMINISHED
    | ChordQuality.AUGMENTED | ChordQuality.DIMINISHED7
    | ChordQuality.SUSPENDED4 | ChordQuality.SUSPENDED2 =>
        ([], ["chromatic"])
    end.
Proof.
  unfold _get_available_tensions, _recommend_scales.
  destruct (quality chord); cbn; repeat split;
    try (intros H; exfalso; apply H; tauto);
    try (intros x H;
         repeat (destruct H as [H|H]; [now inversion H|]); contradiction).
Qed.

Lemma tensions_and_scales_by_quality_witness :
  _get_available_tensions
    (mkChord "C" ChordQuality.MAJOR [] None None None) "C" = [] /\
  _recommend_scales
    (mkChord "C" ChordQuality.MAJOR [] None None None) "C" = ["chromatic"] /\
  _get_available_tensions
    (mkChord "G" ChordQuality.DOMINANT [] None None None) "C"
  = ["9"; "11"; "13"; "b13"; "#11"].
Proof.
  pose proof (tensions_and_scales_by_quality
                (mkChord "C" ChordQuality.MAJOR [] None None None) "C")
    as [H1 [H2 _]].
  pose proof (tensions_and_scales_by_quality
                (mkChord "G" ChordQuality.DOMINANT [] None None None) "C")
    as [_ [_ [H3 _]]].
  split; [|split].
  - apply H1. cbn. intuition discriminate.
  - apply H2. cbn. intuition discriminate.
  - apply H3. cbn. tauto.
Defined.

(** ** Tritone substitution *)

Section Tritone.

Ltac each_index i H :=
  assert (i = 0 \/ i = 1 \/ i = 2 \/ i = 3 \/ i = 4 \/ i = 5 \/ i = 6
          \/ i = 7 \/ i = 8 \/ i = 9 \/ i = 10 \/ i = 11)%Z as H by lia;
  repeat (destruct H as [H|H]; [subst i|]); [..|subst i].

(* The alphabet has no repeated name: [index] undoes [getitem]. *)
Lemma alphabet_index (i : Z) (x : string) :
  (0 <= i < 12)%Z ->
  getitem chromatic_notes i = Ok x -> index chromatic_notes x = Ok i.
Proof.
  intros Hi H. each_index i Hc; vm_compute in H; inversion H;
    reflexivity.
Qed.

Lemma alphabet_getitem (i : Z) :
  (0 <= i < 12)%Z ->
  exists x, getitem chromatic_notes i = Ok x /\
            parse_chord (x ++ "7")
            = Ok (mkChord x ChordQuality.DOMINANT [] None None None).
Proof.
  intros Hi. each_index i Hc; eexists; split; reflexivity.
Qed.




End Tritone.



(** ** The function table *)

Section FunctionTable.

Ltac each_char c :=
  destruct c as [[] [] [] [] [] [] [] []]; vm_compute; try reflexivity;
  try discriminate; auto.

Lemma upper_char_not_i (c : ascii) : Ascii.eqb "i" (upper_char c) = false.
Proof. each_char c. Qed.

Lemma upper_char_not_v (c : ascii) : Ascii.eqb "v" (upper_char c) = false.
Proof. each_char c. Qed.

Lemma eqb_upper_i (k x : string) : String.eqb (String "i" k) (upper x) = false.
Proof.
  destruct x as [|c x]; [reflexivity|].
  change (Ascii.eqb "i" (upper_char c) && String.eqb k (upper x) = false).
  now rewrite upper_char_not_i.
Qed.

Lemma eqb_upper_v (k x : string) : String.eqb (String "v" k) (upper x) = false.
Proof.
  destruct x as [|c x]; [reflexivity|].
  change (Ascii.eqb "v" (upper_char c) && String.eqb k (upper x) = false).
  now rewrite upper_char_not_v.
Qed.

(* The keys 'ii', 'iii', 'vi' and 'vii°' of harmonic_functions are never
   looked up, since the lookup key is upper-cased: only 'I', 'IV' and 'V'
   can be found. *)
Lemma determine_function_reachable (roman_numeral : string) :
  _determine_function roman_numeral
  = dict_get String.eqb
      [ ("I", Function.TONIC); ("IV", Function.SUBDOMINANT);
        ("V", Function.DOMINANT) ]
      (upper (replace "°" "" roman_numeral)) Function.SUBSTITUTE.
Proof.
  unfold _determine_function, harmonic_functions.
  set (b := replace "°" "" roman_numeral).
  cbn [dict_get]. now rewrite !eqb_upper_i, !eqb_upper_v.
Qed.

End FunctionTable.

(** C1. Evaluation at the chord "Dm" in the key of C: the chord parses,
    its root is in the alphabet and its roman numeral is "ii", but the
    function is Substitute, where the table of the claim gives
    Subdominant for "II". *)
Theorem resolve_Dm_in_C :
  exists c,
    parse_chord "Dm" = Ok c /\
    In (root c) chromatic_notes /\
    resolve c "C" = Ok ("ii", Function.SUBSTITUTE) /\
    dict_get String.eqb stated_functions (upper (replace "°" "" "ii"))
      Function.SUBSTITUTE = Function.SUBDOMINANT.
Proof.
  eexists. split; [reflexivity|]. split; [cbn; tauto|].
  split; reflexivity.
Qed.

(** C2. Evaluation of the analysis of Dm7, G7, CM7 in the key of C: the
    call succeeds with three records whose functions are Substitute,
    Dominant, Tonic. *)
Theorem analyze_ii_V_I :
  exists entries,
    analyze_chord_progression ["Dm7"; "G7"; "CM7"] "C" = Ok entries /\
    List.map chord_symbol entries = ["Dm7"; "G7"; "CM7"] /\
    List.map entry_roman_numeral entries = ["ii"; "V"; "i"] /\
    List.map function_value entries = ["sub"; "D"; "T"] /\
    List.map (fun e => function (chord e)) entries
    = [Some Function.SUBSTITUTE; Some Function.DOMINANT;
       Some Function.TONIC].
Proof.
  eexists. split; [reflexivity|]. repeat split.
Qed.

(** C4. Evaluation at the chord "Db": the parser accepts it with root
    "Db", which is no entry of the alphabet, and the resolver, the
    voice-leading check and the substitution rules raise on it. *)
Theorem flat_root_outside_alphabet :
  exists c c7,
    parse_chord "Db" = Ok c /\
    root c = "Db" /\
    ~ In (root c) chromatic_notes /\
    resolve c "C" = Raise (NotInList "Db") /\
    validate_voice_leading ["C"; "Db"] = Raise (NotInList "Db") /\
    parse_chord "Db7" = Ok c7 /\
    suggest_chord_substitutions c7 "C" = Raise (NotInList "Db") /\
    _get_chord_substitutions c7 "C" "jazz" 0 1 = Raise (NotInList "Db").
Proof.
  do 2 eexists. split; [reflexivity|]. split; [reflexivity|].
  split; [cbn; intuition discriminate|].
  repeat split.
Qed.

(** C5. Evaluation at the progressions [Db] and [Db, H7] in the key of
    C: every element of the first matches the chord grammar and the call
    raises all the same; in the second "H7" does not match, and the error
    raised is the one of the list lookup of "Db", not the parser's. *)
Theorem analyze_error_on_flat_root :
  (exists c, parse_chord "Db" = Ok c) /\
  analyze_chord_progression ["Db"] "C" = Raise (NotInList "Db") /\
  parse_chord "H7" = Raise (InvalidChordSymbol "H7") /\
  analyze_chord_progression ["Db"; "H7"] "C" = Raise (NotInList "Db").
Proof.
  split; [eexists; reflexivity|]. repeat split.
Qed.

(** C6. Evaluation at the progression [C, Gb]: both symbols parse, and the
    check raises on the list lookup of "Gb" instead of reporting the
    progression valid; on [C, F#], the same distance of 6 in the
    alphabet, it reports valid. *)
Theorem voice_leading_C_Gb :
  (exists c, parse_chord "C" = Ok c) /\
  (exists c, parse_chord "Gb" = Ok c) /\
  validate_voice_leading ["C"; "Gb"] = Raise (NotInList "Gb") /\
  validate_voice_leading ["C"; "F#"] = Ok (mkReport true [] []).
Proof.
  split; [eexists; reflexivity|]. split; [eexists; reflexivity|].
  split; reflexivity.
Qed.

(** ** What holds on roots of the alphabet *)

Section AlphabetRoots.

Lemma match_note_root {A : Type} (s : string)
    (k : string -> string -> option A) (m : A) :
  match_note s k = Some m ->
  exists r rest, is_pitch_class_root r = true /\ k r rest = Some m.
Proof.
  unfold match_note. destruct s as [|c r]; [discriminate|].
  destruct (is_note_letter c) eqn:Hc; [|discriminate].
  destruct r as [|a r'].
  - intros H. exists (String c EmptyString), EmptyString.
    split; [exact Hc | exact H].
  - destruct (is_accidental a) eqn:Ha.
    + destruct (k (String c (String a EmptyString)) r') as [m'|] eqn:Hk.
      * intros H. inversion H; subst m'.
        exists (String c (String a EmptyString)), r'.
        split; [cbn; now rewrite Hc, Ha | exact Hk].
      * intros H. exists (String c EmptyString), (String a r').
        split; [exact Hc | exact H].
    + intros H. exists (String c EmptyString), (String a r').
      split; [exact Hc | exact H].
Qed.

Lemma match_bass_end_shape (s : string) (b : string) :
  match_bass_end s = Some (Some b) -> is_pitch_class_root b = true.
Proof.
  unfold match_bass_end.
  destruct s as [|c r].
  - cbn. discriminate.
  - destruct (Ascii.eqb c "/") eqn:Hc.
    + apply Ascii.eqb_eq in Hc. subst c.
      destruct (match_note r _) as [m|] eqn:Hm.
      * intros H. inversion H; subst m.
        apply match_note_root in Hm as [b' [rest [Hb Hk]]].
        destruct (at_dollar rest); [|discriminate].
        now inversion Hk; subst.
      * destruct (at_dollar (String "/" r)); discriminate.
    + assert (Hn : match String c r with
                   | String "/" r0 =>
                       match_note r0 (fun b0 r' =>
                         if at_dollar r' then Some (Some b0) else None)
                   | _ => None
                   end = None).
      { apply Ascii.eqb_neq in Hc. clear -Hc.
        destruct c as [[] [] [] [] [] [] [] []]; try reflexivity.
        now elim Hc. }
      rewrite Hn. destruct (at_dollar (String c r)); discriminate.
Qed.

Lemma match_quality_bass (s q b : string) :
  match_quality s = Some (q, Some b) -> is_pitch_class_root b = true.
Proof.
  revert q. induction s as [|c s IH]; intros q; cbn [match_quality].
  - destruct (match_bass_end EmptyString) as [m|] eqn:Hm; [|discriminate].
    intros H. inversion H; subst. now apply match_bass_end_shape in Hm.
  - destruct (match_bass_end (String c s)) as [m|] eqn:Hm.
    + intros H. inversion H; subst. now apply match_bass_end_shape in Hm.
    + destruct (Ascii.eqb c "/"); [discriminate|].
      destruct (match_quality s) as [[q' b']|] eqn:Hq; [|discriminate].
      intros H. inversion H; subst. now apply (IH q').
Qed.

(* What the parser does guarantee on its output: root and bass are a
   letter A-G with an optional accidental. *)
Lemma parse_chord_shape (s : string) (c : Chord) :
  parse_chord s = Ok c ->
  is_pitch_class_root (root c) = true /\
  (forall b, bass c = Some b -> is_pitch_class_root b = true).
Proof.
  unfold parse_chord.
  destruct (chord_pattern (strip s)) as [[[r q] b]|] eqn:Hp; [|discriminate].
  intros H. inversion H; subst c; clear H. cbn [root bass].
  unfold chord_pattern in Hp.
  apply match_note_root in Hp as [r' [rest [Hr Hk]]].
  destruct (match_quality rest) as [[q' b']|] eqn:Hq; [|discriminate].
  inversion Hk; subst. split; [exact Hr|].
  intros b0 Hb. subst b. now apply match_quality_bass in Hq.
Qed.

(* The parser raises nothing but its own error, on its own argument. *)
Lemma parse_chord_error (s : string) (e : exn) :
  parse_chord s = Raise e -> e = InvalidChordSymbol s.
Proof.
  unfold parse_chord.
  destruct (chord_pattern (strip s)) as [[[r q] b]|]; [discriminate|].
  now intros H; inversion H.
Qed.

Lemma index_in (l : list string) (x : string) :
  In x l -> exists i, index l x = Ok i.
Proof.
  induction l as [|y l IH]; [contradiction|].
  intros H. cbn [index]. destruct (String.eqb y x) eqn:E; [eauto|].
  destruct H as [H|H].
  - subst y. now rewrite String.eqb_refl in E.
  - destruct (IH H) as [i Hi]. rewrite Hi. cbn. eauto.
Qed.

Lemma index_error (l : list string) (x : string) (e : exn) :
  index l x = Raise e -> e = NotInList x /\ ~ In x l.
Proof.
  induction l as [|y l IH]; cbn [index].
  - intros H. inversion H. split; [reflexivity | tauto].
  - destruct (String.eqb y x) eqn:E; [discriminate|].
    destruct (index l x) as [i|e'] eqn:Hi; cbn; [discriminate|].
    intros H. inversion H; subst e'. destruct (IH eq_refl) as [-> Hn].
    split; [reflexivity|]. intros [Hy|Hin]; [|tauto].
    subst y. now rewrite String.eqb_refl in E.
Qed.

Lemma roman_numeral_total (chord : Chord) (key : string) :
  In key chromatic_notes -> In (root chord) chromatic_notes ->
  exists r, _get_roman_numeral chord key = Ok r.
Proof.
  intros Hk Hr. unfold _get_roman_numeral.
  destruct (index_in _ _ Hk) as [i ->].
  destruct (index_in _ _ Hr) as [j ->]. cbn [bind].
  destruct (quality chord); eauto.
Qed.

Lemma roman_numeral_error (chord : Chord) (key : string) (e : exn) :
  _get_roman_numeral chord key = Raise e ->
  (e = NotInList key /\ ~ In key chromatic_notes) \/
  (e = NotInList (root chord) /\ ~ In (root chord) chromatic_notes).
Proof.
  unfold _get_roman_numeral.
  destruct (index chromatic_notes key) as [i|e1] eqn:Hk; cbn [bind].
  - destruct (index chromatic_notes (root chord)) as [j|e2] eqn:Hr;
      cbn [bind].
    + destruct (quality chord); discriminate.
    + intros H. inversion H; subst e2. right. now apply index_error.
  - intros H. inversion H; subst e1. left. now apply index_error.
Qed.

End AlphabetRoots.

(** ** The analysis loop *)

Section Analysis.

Variable key : string.

Lemma analyze_loop_acc (acc : list analysis_entry) (l : list string) :
  analyze_loop acc l key
  = es <- analyze_loop [] l key ;; Ok (acc ++ es)%list.
Proof.
  revert acc. induction l as [|s l IH]; intros acc; cbn [analyze_loop].
  - cbn. now rewrite app_nil_r.
  - destruct (analyze_one s key) as [entry|e]; cbn [bind]; [|reflexivity].
    rewrite (IH (PyList.append acc entry)), (IH (PyList.append [] entry)).
    destruct (analyze_loop [] l key) as [es|e]; cbn [bind]; [|reflexivity].
    unfold PyList.append. cbn. now rewrite <- app_assoc.
Qed.

Lemma analyze_cons (s : string) (l : list string) :
  analyze_chord_progression (s :: l) key
  = entry <- analyze_one s key ;;
    es <- analyze_chord_progression l key ;;
    Ok (entry :: es).
Proof.
  unfold analyze_chord_progression. cbn [analyze_loop].
  destruct (analyze_one s key) as [entry|e]; cbn [bind]; [|reflexivity].
  now rewrite analyze_loop_acc.
Qed.

Lemma analyze_one_ok (s : string) (c : Chord) :
  In key chromatic_notes ->
  parse_chord s = Ok c -> In (root c) chromatic_notes ->
  exists entry, analyze_one s key = Ok entry /\ chord_symbol entry = s.
Proof.
  intros Hk Hp Hr. unfold analyze_one. rewrite Hp. cbn [bind].
  destruct (roman_numeral_total c key Hk Hr) as [r ->]. cbn [bind].
  eexists. split; reflexivity.
Qed.

Lemma analyze_one_error (s : string) (e : exn) :
  analyze_one s key = Raise e ->
  (e = InvalidChordSymbol s /\ parse_chord s = Raise e) \/
  (exists c x, parse_chord s = Ok c /\ e = NotInList x /\
               ~ In x chromatic_notes /\ (x = key \/ x = root c)).
Proof.
  unfold analyze_one.
  destruct (parse_chord s) as [c|e1] eqn:Hp; cbn [bind].
  - destruct (_get_roman_numeral c key) as [r|e2] eqn:Hr; cbn [bind];
      [discriminate|].
    intros H. inversion H; subst e2. right.
    apply roman_numeral_error in Hr as [[-> Hn]|[-> Hn]];
      eexists; eexists; eauto.
  - intros H. inversion H; subst e1. left.
    split; [now apply parse_chord_error in Hp | reflexivity].
Qed.

(* With a key of the alphabet and symbols that parse to roots of the
   alphabet, the analysis returns one record per symbol, in order. *)
Lemma analyze_total (symbols : list string) :
  In key chromatic_notes ->
  (forall s, In s symbols ->
     exists c, parse_chord s = Ok c /\ In (root c) chromatic_notes) ->
  exists entries,
    analyze_chord_progression symbols key = Ok entries /\
    List.map chord_symbol entries = symbols.
Proof.
  intros Hk. induction symbols as [|s l IH]; intros H.
  - exists []. split; reflexivity.
  - destruct (H s (or_introl eq_refl)) as [c [Hp Hr]].
    destruct (analyze_one_ok s c Hk Hp Hr) as [entry [He Hs]].
    destruct IH as [es [Hes Hm]]; [intros s' Hs'; apply H; now right|].
    exists (entry :: es). rewrite analyze_cons, He, Hes. cbn.
    split; [reflexivity | now rewrite Hs, Hm].
Qed.

(* When the analysis raises the error of the parser, a symbol of the
   progression does not match the chord pattern. *)
Lemma analyze_parser_error (symbols : list string) (s : string) :
  analyze_chord_progression symbols key = Raise (InvalidChordSymbol s) ->
  In s symbols /\ parse_chord s = Raise (InvalidChordSymbol s).
Proof.
  induction symbols as [|s' l IH].
  - discriminate.
  - rewrite analyze_cons.
    destruct (analyze_one s' key) as [entry|e] eqn:He; cbn [bind].
    + destruct (analyze_chord_progression l key) as [es|e] eqn:Hes;
        cbn [bind]; [discriminate|].
      intros H. inversion H; subst e.
      destruct (IH eq_refl) as [Hin Hp]. split; [now right | exact Hp].
    + intros H. inversion H; subst e.
      apply analyze_one_error in He as [[Heq Hp]|[c [x [_ [Heq _]]]]];
        [|discriminate].
      inversion Heq; subst s'. split; [now left | exact Hp].
Qed.

(* With a key of the alphabet and every parsed root in the alphabet, the
   analysis fails exactly when a symbol does not parse, with the error of
   the parser on the first such symbol. *)
Lemma analyze_fails_iff_unparseable (symbols : list string) :
  In key chromatic_notes ->
  (forall s c, In s symbols -> parse_chord s = Ok c ->
     In (root c) chromatic_notes) ->
  (exists e, analyze_chord_progression symbols key = Raise e) <->
  (exists s, In s symbols /\ is_ok (parse_chord s) = false).
Proof.
  intros Hk. induction symbols as [|s l IH]; intros H.
  - split; [intros [e He]; discriminate | intros [s [[] _]]].
  - rewrite analyze_cons.
    assert (Hl : forall s0 c, In s0 l -> parse_chord s0 = Ok c ->
                   In (root c) chromatic_notes)
      by (intros s0 c Hin; apply H; now right).
    specialize (IH Hl).
    destruct (parse_chord s) as [c|e1] eqn:Hp.
    + destruct (analyze_one_ok s c Hk Hp (H s c (or_introl eq_refl) Hp))
        as [entry [He _]].
      rewrite He. cbn [bind]. split.
      * intros [e Hr].
        destruct (analyze_chord_progression l key) as [es|e'] eqn:Hes;
          [discriminate|].
        destruct (proj1 IH (ex_intro _ e' eq_refl)) as [s0 [Hin Hf]].
        exists s0. split; [now right | exact Hf].
      * intros [s0 [[Heq|Hin] Hf]].
        -- subst s0. rewrite Hp in Hf. discriminate.
        -- destruct (proj2 IH (ex_intro _ s0 (conj Hin Hf))) as [e Hr].
           rewrite Hr. cbn. eauto.
    + split.
      * intros _. exists s. split; [now left | now rewrite Hp].
      * intros _. unfold analyze_one. rewrite Hp. cbn. eauto.
Qed.

End Analysis.

(** ** The voice-leading loop *)

Section VoiceLeading.

Lemma voice_leading_loop_step (iss sug : list string) (a b : string)
    (rest : list string) :
  voice_leading_loop iss sug (a :: b :: rest)
  = current <- parse_chord a ;;
    next_chord <- parse_chord b ;;
    current_root <- index chromatic_notes (root current) ;;
    next_root <- index chromatic_notes (root next_chord) ;;
    if (Z.abs (next_root - current_root) >? 6)%Z
    then voice_leading_loop
           (PyList.append iss (issue_of (a, b)))
           (PyList.append sug (suggestion_of (a, b))) (b :: rest)
    else voice_leading_loop iss sug (b :: rest).
Proof. reflexivity. Qed.

Lemma voice_leading_loop_flagged (l : list (string * Z)) :
  Forall (fun p => root_at (fst p) (snd p)) l ->
  forall iss sug,
    voice_leading_loop iss sug (List.map fst l)
    = Ok ((iss ++ List.map issue_of (flagged l))%list,
          (sug ++ List.map suggestion_of (flagged l))%list).
Proof.
  induction l as [|[a i] l IH]; intros Hall iss sug.
  - cbn. now rewrite !app_nil_r.
  - destruct l as [|[b j] l'].
    + cbn. now rewrite !app_nil_r.
    + inversion Hall as [|? ? Ha Hall']; subst.
      inversion Hall' as [|? ? Hb _]; subst.
      destruct Ha as [ca [Hpa Hia]]. destruct Hb as [cb [Hpb Hib]].
      cbn [fst snd] in *.
      specialize (IH Hall'). cbn [List.map fst] in IH.
      cbn [List.map fst flagged]. rewrite voice_leading_loop_step.
      rewrite Hpa, Hpb. cbn [bind]. rewrite Hia, Hib. cbn [bind].
      destruct (Z.abs (j - i) >? 6)%Z.
      * rewrite IH. unfold PyList.append. cbn [List.map].
        now rewrite <- !app_assoc.
      * now rewrite IH.
Qed.

(* On symbols that parse to roots of the alphabet the check returns, and
   flags exactly the adjacent pairs whose raw index difference exceeds 6;
   the progression is valid when no pair is flagged. *)
Lemma voice_leading_on_alphabet (l : list (string * Z)) :
  Forall (fun p => root_at (fst p) (snd p)) l ->
  validate_voice_leading (List.map fst l)
  = Ok (mkReport (Nat.eqb (List.length (flagged l)) 0)
          (List.map issue_of (flagged l))
          (List.map suggestion_of (flagged l))).
Proof.
  intros Hall. unfold validate_voice_leading.
  rewrite (voice_leading_loop_flagged l Hall). cbn [bind app].
  now rewrite length_map.
Qed.

End VoiceLeading.

(* The boundary of the rule: a raw difference of 6 (C to F#, F# to C) is
   not flagged, a raw difference of 7 (C to G) is. *)
Example voice_leading_boundary :
  validate_voice_leading ["C"; "F#"; "C"; "G"]
  = Ok (mkReport false [issue_of ("C", "G")] [suggestion_of ("C", "G")]).
Proof. reflexivity. Qed.

(* Of the 21 roots of the grammar, the flats and E#, B# are outside the
   alphabet. *)
Example roots_outside_alphabet :
  List.filter
    (fun r => negb (existsb (String.eqb r) chromatic_notes))
    ["A"; "A#"; "Ab"; "B"; "B#"; "Bb"; "C"; "C#"; "Cb"; "D"; "D#"; "Db";
     "E"; "E#"; "Eb"; "F"; "F#"; "Fb"; "G"; "G#"; "Gb"]
  = ["Ab"; "B#"; "Bb"; "Cb"; "Db"; "E#"; "Eb"; "Fb"; "Gb"].
Proof. reflexivity. Qed.

(** * Further properties of the engine *)

(** ** Extensions *)

Lemma findall_tensions_vocabulary (s : string) :
  forall skip e,
    In e (findall_tensions skip s) -> In e tension_pattern.
Proof.
  induction s as [|c s IH]; intros skip e; cbn [findall_tensions].
  - contradiction.
  - destruct skip as [|k]; [|apply IH].
    destruct (find (fun t => startswith t (String c s)) tension_pattern)
      as [t|] eqn:E.
    + intros [<-|H]; [|now apply IH in H].
      now apply find_some in E.
    + apply IH.
Qed.

(** X1. Every extension of a parsed chord is one of the five tension
    labels 9, 11, 13, #11, b13. *)
Theorem parsed_extensions_in_vocabulary (s : string) (c : Chord) :
  parse_chord s = Ok c ->
  forall e, In e (extensions c) -> In e ["9"; "11"; "13"; "#11"; "b13"].
Proof.
  unfold parse_chord.
  destruct (chord_pattern (strip s)) as [[[r q] b]|]; [|discriminate].
  intros H e. inversion H; subst c; cbn [extensions].
  unfold _parse_extensions, extend. cbn [app].
  apply findall_tensions_vocabulary.
Qed.

Lemma parsed_extensions_in_vocabulary_witness :
  exists c,
    parse_chord "C7#11b13" = Ok c /\
    extensions c = ["#11"; "b13"] /\
    forall e, In e (extensions c) -> In e ["9"; "11"; "13"; "#11"; "b13"].
Proof.
  eexists. split; [reflexivity|]. split; [reflexivity|].
  apply (parsed_extensions_in_vocabulary "C7#11b13"). reflexivity.
Defined.

(** ** Roman numerals and functions *)

Section Resolver.

Ltac each_index i H :=
  assert (i = 0 \/ i = 1 \/ i = 2 \/ i = 3 \/ i = 4 \/ i = 5 \/ i = 6
          \/ i = 7 \/ i = 8 \/ i = 9 \/ i = 10 \/ i = 11)%Z as H by lia;
  repeat (destruct H as [H|H]; [subst i|]); [..|subst i].

Lemma interval_shift (i j t : Z) :
  (((j + t) mod 12 - (i + t) mod 12) mod 12 = (j - i) mod 12)%Z.
Proof.
  rewrite <- Zminus_mod. f_equal. lia.
Qed.

Lemma resolve_by_indices (i j : Z) (c : Chord) (key : string) :
  (0 <= i < 12)%Z -> (0 <= j < 12)%Z ->
  getitem chromatic_notes i = Ok key ->
  getitem chromatic_notes j = Ok (root c) ->
  resolve c key
  = (let base_roman := dict_get Z.eqb roman_map ((j - i) mod 12)%Z "bII" in
     let roman_numeral :=
       match quality c with
       | ChordQuality.MINOR | ChordQuality.MINOR7 => lower base_roman
       | ChordQuality.DIMINISHED => lower base_roman ++ "°"
       | _ => base_roman
       end in
     Ok (roman_numeral, _determine_function roman_numeral)).
Proof.
  intros Hi Hj Hk Hr. unfold resolve, _get_roman_numeral.
  rewrite (alphabet_index i key Hi Hk), (alphabet_index j _ Hj Hr).
  cbn [bind]. destruct (quality c); reflexivity.
Qed.

Lemma function_of_interval (d : Z) (q : ChordQuality.t) :
  (0 <= d < 12)%Z ->
  _determine_function
    (let base_roman := dict_get Z.eqb roman_map d "bII" in
     match q with
     | ChordQuality.MINOR | ChordQuality.MINOR7 => lower base_roman
     | ChordQuality.DIMINISHED => lower base_roman ++ "°"
     | _ => base_roman
     end)
  = match d with
    | 0 => Function.TONIC
    | 5 => Function.SUBDOMINANT
    | 7 => Function.DOMINANT
    | _ => Function.SUBSTITUTE
    end%Z.
Proof.
  intros Hd. each_index d H; destruct q; reflexivity.
Qed.

End Resolver.

Lemma index_ok_in (l : list string) (x : string) (i : Z) :
  index l x = Ok i -> In x l.
Proof.
  revert i. induction l as [|y l IH]; intros i; cbn [index];
    [discriminate|].
  destruct (String.eqb y x) eqn:E.
  - apply String.eqb_eq in E. intros _. now left.
  - destruct (index l x) as [k|e]; [|discriminate].
    intros _. right. now apply (IH k).
Qed.

(** X2. The roman numeral of a chord is defined exactly when the key and
    the root of the chord are both entries of the alphabet; the key is
    looked up first, so a key outside the alphabet is the error
    reported. *)
Theorem roman_numeral_defined_iff (chord : Chord) (key : string) :
  ((exists r, _get_roman_numeral chord key = Ok r) <->
   In key chromatic_notes /\ In (root chord) chromatic_notes) /\
  (~ In key chromatic_notes ->
   _get_roman_numeral chord key = Raise (NotInList key)).
Proof.
  split; [split|].
  - intros [r Hr]. unfold _get_roman_numeral in Hr.
    destruct (index chromatic_notes key) as [i|e] eqn:Hi; [|discriminate].
    cbn [bind] in Hr.
    destruct (index chromatic_notes (root chord)) as [j|e] eqn:Hj;
      [|discriminate].
    split; [exact (index_ok_in _ _ _ Hi) | exact (index_ok_in _ _ _ Hj)].
  - intros [Hk Hc]. now apply roman_numeral_total.
  - intros Hk. unfold _get_roman_numeral.
    destruct (index chromatic_notes key) as [i|e] eqn:Hi.
    + elim Hk. exact (index_ok_in _ _ _ Hi).
    + apply index_error in Hi as [-> _]. reflexivity.
Qed.

Lemma roman_numeral_defined_iff_witness :
  _get_roman_numeral (mkChord "D" ChordQuality.MINOR [] None None None) "H"
  = Raise (NotInList "H").
Proof.
  apply (proj2 (roman_numeral_defined_iff
                  (mkChord "D" ChordQuality.MINOR [] None None None) "H")).
  cbn. intuition discriminate.
Defined.

(** X3. Transposition: when the key and the root of a chord are moved by
    the same number of semitones, quality unchanged, the roman numeral and
    the function are the same. *)
Theorem resolve_transposition (i j t : Z) (c c' : Chord)
    (key key' : string) :
  (0 <= i < 12)%Z -> (0 <= j < 12)%Z ->
  getitem chromatic_notes i = Ok key ->
  getitem chromatic_notes j = Ok (root c) ->
  getitem chromatic_notes ((i + t) mod 12) = Ok key' ->
  getitem chromatic_notes ((j + t) mod 12) = Ok (root c') ->
  quality c' = quality c ->
  resolve c' key' = resolve c key.
Proof.
  intros Hi Hj Hk Hr Hk' Hr' Hq.
  assert (Hi' : (0 <= (i + t) mod 12 < 12)%Z)
    by (apply Z.mod_pos_bound; lia).
  assert (Hj' : (0 <= (j + t) mod 12 < 12)%Z)
    by (apply Z.mod_pos_bound; lia).
  rewrite (resolve_by_indices _ _ c' key' Hi' Hj' Hk' Hr').
  rewrite (resolve_by_indices _ _ c key Hi Hj Hk Hr).
  now rewrite interval_shift, Hq.
Qed.

Lemma resolve_transposition_witness :
  resolve (mkChord "E" ChordQuality.MINOR7 [] None None None) "D"
  = resolve (mkChord "D" ChordQuality.MINOR7 [] None None None) "C".
Proof.
  apply (resolve_transposition 0 2 2
           (mkChord "D" ChordQuality.MINOR7 [] None None None)
           (mkChord "E" ChordQuality.MINOR7 [] None None None) "C" "D");
    try lia; reflexivity.
Defined.

(** X4. With key and root in the alphabet, the function of a chord only
    depends on the interval from the key to the root, whatever the
    quality: Tonic on the key itself (0), Subdominant a fourth above (5),
    Dominant a fifth above (7), Substitute on the nine other intervals;
    SecondaryDominant and Diminished are never assigned. *)
Theorem function_by_interval (i j : Z) (c : Chord) (key : string) :
  (0 <= i < 12)%Z -> (0 <= j < 12)%Z ->
  getitem chromatic_notes i = Ok key ->
  getitem chromatic_notes j = Ok (root c) ->
  exists roman_numeral,
    resolve c key
    = Ok (roman_numeral,
          match ((j - i) mod 12)%Z with
          | 0 => Function.TONIC
          | 5 => Function.SUBDOMINANT
          | 7 => Function.DOMINANT
          | _ => Function.SUBSTITUTE
          end%Z).
Proof.
  intros Hi Hj Hk Hr.
  rewrite (resolve_by_indices i j c key Hi Hj Hk Hr).
  eexists. cbv zeta. f_equal. f_equal.
  apply (function_of_interval ((j - i) mod 12) (quality c)).
  apply Z.mod_pos_bound. lia.
Qed.

Lemma function_by_interval_witness :
  exists roman_numeral,
    resolve (mkChord "F" ChordQuality.MINOR [] None None None) "C"
    = Ok (roman_numeral, Function.SUBDOMINANT).
Proof.
  apply (function_by_interval 0 5
           (mkChord "F" ChordQuality.MINOR [] None None None) "C");
    try lia; reflexivity.
Defined.

(** ** The records of an analysis *)

Lemma analyze_one_inv (s key : string) (e : analysis_entry) :
  analyze_one s key = Ok e ->
  chord_symbol e = s /\
  exists c,
    parse_chord s = Ok c /\
    root (chord e) = root c /\ quality (chord e) = quality c /\
    extensions (chord e) = extensions c /\ bass (chord e) = bass c /\
    _get_roman_numeral c key = Ok (entry_roman_numeral e) /\
    roman_numeral (chord e) = Some (entry_roman_numeral e) /\
    function (chord e)
    = Some (_determine_function (entry_roman_numeral e)) /\
    function_value e
    = Function.value (_determine_function (entry_roman_numeral e)) /\
    tensions_available e = _get_available_tensions c key /\
    scales_recommended e = _recommend_scales c key.
Proof.
  unfold analyze_one.
  destruct (parse_chord s) as [c|e1]; [|discriminate]. cbn [bind].
  destruct (_get_roman_numeral c key) as [r|e2] eqn:Hr; [|discriminate].
  cbn [bind]. intros H. inversion H; subst e; clear H.
  split; [reflexivity|]. exists c. cbn. repeat split. exact Hr.
Qed.

Lemma analyze_entries (symbols : list string) (key : string)
    (entries : list analysis_entry) :
  analyze_chord_progression symbols key = Ok entries ->
  Forall2
    (fun s e =>
       chord_symbol e = s /\
       exists c,
         parse_chord s = Ok c /\
         root (chord e) = root c /\ quality (chord e) = quality c /\
         extensions (chord e) = extensions c /\ bass (chord e) = bass c /\
         _get_roman_numeral c key = Ok (entry_roman_numeral e) /\
         roman_numeral (chord e) = Some (entry_roman_numeral e) /\
         function (chord e)
         = Some (_determine_function (entry_roman_numeral e)) /\
         function_value e
         = Function.value (_determine_function (entry_roman_numeral e)) /\
         tensions_available e = _get_available_tensions c key /\
         scales_recommended e = _recommend_scales c key)
    symbols entries.
Proof.
  revert entries. induction symbols as [|s l IH]; intros entries.
  - intros H. inversion H. constructor.
  - rewrite analyze_cons.
    destruct (analyze_one s key) as [e|x] eqn:He; [|discriminate].
    cbn [bind].
    destruct (analyze_chord_progression l key) as [es|x]; [|discriminate].
    cbn [bind]. intros H. inversion H; subst entries.
    constructor; [now apply analyze_one_inv | now apply IH].
Qed.


(** X5. When the analysis of a progression returns, it returns one record
    per symbol, in the order of the symbols, and each record is what the
    parser, the resolver and the two advisors give for its own symbol
    alone: no record depends on the chords before or after it. *)
Theorem analysis_records (symbols : list string) (key : string)
    (entries : list analysis_entry) :
  analyze_chord_progression symbols key = Ok entries ->
  Forall2
    (fun s e =>
       chord_symbol e = s /\
       exists c,
         parse_chord s = Ok c /\
         root (chord e) = root c /\ quality (chord e) = quality c /\
         extensions (chord e) = extensions c /\ bass (chord e) = bass c /\
         _get_roman_numeral c key = Ok (entry_roman_numeral e) /\
         roman_numeral (chord e) = Some (entry_roman_numeral e) /\
         function (chord e)
         = Some (_determine_function (entry_roman_numeral e)) /\
         function_value e
         = Function.value (_determine_function (entry_roman_numeral e)) /\
         tensions_available e = _get_available_tensions c key /\
         scales_recommended e = _recommend_scales c key)
    symbols entries.
Proof. exact (analyze_entries symbols key entries). Qed.

Lemma analysis_records_witness :
  exists entries,
    analyze_chord_progression ["F"; "G7"; "C"] "C" = Ok entries /\
    List.length entries = 3%nat.
Proof.
  eexists. split; [reflexivity|].
  symmetry.
  apply (Forall2_length
           (analysis_records ["F"; "G7"; "C"] "C" _ eq_refl)).
Defined.

(** X6. The key is only looked up while a chord is resolved: the analysis
    of the empty progression returns the empty list for every key, and
    with a key outside the alphabet a progression whose first symbol
    parses raises the lookup error of the key. *)
Theorem key_checked_per_chord (key : string) :
  analyze_chord_progression [] key = Ok [] /\
  (forall s c rest,
     ~ In key chromatic_notes -> parse_chord s = Ok c ->
     analyze_chord_progression (s :: rest) key = Raise (NotInList key)).
Proof.
  split; [reflexivity|].
  intros s c rest Hk Hp. rewrite analyze_cons.
  unfold analyze_one. rewrite Hp. cbn [bind].
  unfold _get_roman_numeral.
  destruct (index chromatic_notes key) as [i|e] eqn:Hi.
  - elim Hk. exact (index_ok_in _ _ _ Hi).
  - apply index_error in Hi as [-> _]. reflexivity.
Qed.

Lemma key_checked_per_chord_witness :
  analyze_chord_progression [] "H" = Ok [] /\
  analyze_chord_progression ["C"; "G7"] "H" = Raise (NotInList "H").
Proof.
  split; [exact (proj1 (key_checked_per_chord "H"))|].
  eapply (proj2 (key_checked_per_chord "H") "C" _ ["G7"]).
  - cbn. intuition discriminate.
  - reflexivity.
Defined.

(** ** The voice-leading report *)

Section VoiceLeadingReport.

Lemma voice_leading_loop_inv (l : list string) :
  forall iss sug r,
    (2 <= List.length l)%nat ->
    voice_leading_loop iss sug l = Ok r ->
    forall s, In s l -> exists i, root_at s i.
Proof.
  induction l as [|a l IH]; intros iss sug r Hlen H s Hin;
    [cbn in Hlen; lia|].
  destruct l as [|b l']; [cbn in Hlen; lia|].
  rewrite voice_leading_loop_step in H.
  destruct (parse_chord a) as [ca|e] eqn:Hpa; [|discriminate].
  destruct (parse_chord b) as [cb|e] eqn:Hpb; [|discriminate].
  cbn [bind] in H.
  destruct (index chromatic_notes (root ca)) as [i|e] eqn:Hia;
    [|discriminate].
  destruct (index chromatic_notes (root cb)) as [j|e] eqn:Hib;
    [|discriminate].
  cbn [bind] in H.
  destruct Hin as [<-|Hin]; [exists i, ca; now split|].
  destruct l' as [|c l''].
  - destruct Hin as [<-|[]]. exists j, cb; now split.
  - destruct (Z.abs (j - i) >? 6)%Z;
      eapply IH; try exact H; try exact Hin; cbn; lia.
Qed.

Lemma roots_at (l : list string) :
  (forall s, In s l -> exists i, root_at s i) ->
  exists l', List.map fst l' = l /\
             Forall (fun p => root_at (fst p) (snd p)) l'.
Proof.
  induction l as [|s l IH]; intros H.
  - exists []. split; [reflexivity | constructor].
  - destruct (H s (or_introl eq_refl)) as [i Hi].
    destruct IH as [l' [Hm Hf]]; [intros s' Hs'; apply H; now right|].
    exists ((s, i) :: l'). split; [cbn; now rewrite Hm|].
    constructor; [exact Hi | exact Hf].
Qed.


Lemma short_progression (l : list string) :
  (List.length l <= 1)%nat ->
  validate_voice_leading l = Ok (mkReport true [] []).
Proof.
  destruct l as [|a [|b l]]; cbn; try reflexivity; lia.
Qed.

End VoiceLeadingReport.

(** X7. The voice-leading check returns a report exactly when the
    progression has fewer than two symbols or every symbol parses to a
    root of the alphabet; a progression of fewer than two symbols is
    reported valid without being parsed at all. *)
Theorem voice_leading_defined_iff (progression : list string) :
  ((exists report, validate_voice_leading progression = Ok report) <->
   (List.length progression <= 1)%nat \/
   (forall s, In s progression -> exists i, root_at s i)) /\
  ((List.length progression <= 1)%nat ->
   validate_voice_leading progression = Ok (mkReport true [] [])).
Proof.
  split; [split|apply short_progression].
  - intros [report H].
    destruct (Nat.le_gt_cases (List.length progression) 1) as [Hl|Hl];
      [now left|right].
    unfold validate_voice_leading in H.
    destruct (voice_leading_loop [] [] progression) as [r|e] eqn:Hr;
      [|discriminate].
    exact (voice_leading_loop_inv progression [] [] r Hl Hr).
  - intros [Hl|Hall].
    + rewrite (short_progression _ Hl). eauto.
    + destruct (roots_at _ Hall) as [l' [<- Hf]].
      rewrite (voice_leading_on_alphabet l' Hf). eauto.
Qed.

Lemma voice_leading_defined_iff_witness :
  validate_voice_leading ["H7"] = Ok (mkReport true [] []).
Proof.
  apply (proj2 (voice_leading_defined_iff ["H7"])). cbn. lia.
Defined.



(** ** The language of the parser *)

Section Grammar.

Lemma rstrip_snoc_nonspace (x : string) (c : ascii) :
  is_space c = false ->
  rstrip (x ++ String c EmptyString) = x ++ String c EmptyString.
Proof.
  intros Hc. induction x as [|d x IH].
  - cbn. now rewrite Hc.
  - cbn [String.append rstrip]. rewrite IH.
    destruct x; reflexivity.
Qed.


Lemma lstrip_head_nonspace (c : ascii) (s : string) :
  is_space c = false -> lstrip (String c s) = String c s.
Proof. intros H. cbn. now rewrite H. Qed.





Lemma not_slash_head (c : ascii) (r : string) :
  Ascii.eqb c "/" = false ->
  match String c r with
  | String "/" r0 =>
      match_note r0 (fun b0 r' =>
        if at_dollar r' then Some (Some b0) else None)
  | _ => None
  end = None.
Proof.
  intros Hc. apply Ascii.eqb_neq in Hc.
  destruct c as [[] [] [] [] [] [] [] []]; try reflexivity. now elim Hc.
Qed.




Lemma append_assoc (a b c : string) : (a ++ b) ++ c = a ++ b ++ c.
Proof. induction a as [|x a IH]; cbn; [reflexivity | now rewrite IH]. Qed.

Lemma root_snoc (b : string) :
  is_pitch_class_root b = true ->
  exists x c, b = x ++ String c EmptyString /\ is_space c = false.
Proof.
  destruct b as [|c [|a [|? ?]]]; try discriminate; cbn.
  - intros H. exists EmptyString, c.
    split; [reflexivity | now apply note_letter_not_space].
  - intros H. apply andb_true_iff in H as [_ Ha].
    exists (String c EmptyString), a.
    split; [reflexivity | now apply accidental_not_space].
Qed.

(* With a valid bass after the slash the end of the pattern matches. *)
Lemma match_bass_end_slash (b : string) :
  is_pitch_class_root b = true ->
  match_bass_end ("/" ++ b) = Some (Some b).
Proof.
  destruct b as [|c [|a [|? ?]]]; try discriminate; cbn [is_pitch_class_root].
  - intros Hc. unfold match_bass_end, match_note. cbn [String.append].
    now rewrite Hc.
  - intros H. apply andb_true_iff in H as [Hc Ha].
    unfold match_bass_end, match_note. cbn [String.append].
    now rewrite Hc, Ha.
Qed.

(* A suffix without slash followed by a slash and a valid bass: the lazy
   group stops at the slash. *)
Lemma match_quality_slash (q b : string) :
  contains "/" q = false -> is_pitch_class_root b = true ->
  match_quality (q ++ "/" ++ b) = Some (q, Some b).
Proof.
  intros Hq Hb. induction q as [|c q IH].
  - cbn [String.append].
    change (String "/" b) with ("/" ++ b).
    destruct b as [|c0 b0]; [discriminate|].
    cbn [String.append match_quality].
    change (String "/" (String c0 b0)) with ("/" ++ String c0 b0).
    now rewrite (match_bass_end_slash _ Hb).
  - rewrite contains_slash_cons in Hq.
    apply orb_false_iff in Hq as [Hc Hq].
    assert (Hc' : Ascii.eqb c "/" = false) by now rewrite Ascii.eqb_sym.
    cbn [String.append match_quality]. unfold match_bass_end.
    rewrite (not_slash_head c _ Hc').
    assert (Hd : at_dollar (String c (q ++ String "/" b)) = false)
      by (destruct q; reflexivity).
    rewrite Hd, Hc'. cbn [String.append] in IH. now rewrite (IH Hq).
Qed.




End Grammar.

Section GrammarClaims.



Lemma strip_clean (r rest : string) (c : ascii) :
  is_pitch_class_root r = true -> is_space c = false ->
  strip (r ++ rest ++ String c EmptyString)
  = r ++ rest ++ String c EmptyString.
Proof.
  intros Hr Hc. unfold strip.
  assert (Hl : lstrip (r ++ rest ++ String c EmptyString)
               = r ++ rest ++ String c EmptyString).
  { destruct r as [|c0 r0]; [discriminate|]. cbn [String.append].
    apply lstrip_head_nonspace. apply note_letter_not_space.
    destruct r0 as [|a [|? ?]]; cbn in Hr; try discriminate;
      [exact Hr | now apply andb_true_iff in Hr as [Hr _]]. }
  rewrite Hl, <- append_assoc. now apply rstrip_snoc_nonspace.
Qed.

Lemma parse_chord_slash (r q b : string) :
  is_pitch_class_root r = true ->
  contains "/" q = false ->
  (String.length r = 1 -> begins_accidental q = false) ->
  is_pitch_class_root b = true ->
  parse_chord (r ++ q ++ "/" ++ b)
  = Ok (mkChord r (_determine_chord_quality q) (_parse_extensions q)
          (Some b) None None).
Proof.
  intros Hr Hq Hacc Hb.
  destruct (root_snoc b Hb) as [x [c [Hx Hc]]].
  assert (Hs : strip (r ++ q ++ "/" ++ b) = r ++ q ++ "/" ++ b).
  { rewrite Hx.
    replace (r ++ q ++ "/" ++ x ++ String c EmptyString)
      with (r ++ (q ++ "/" ++ x) ++ String c EmptyString)
      by now rewrite !append_assoc.
    now apply strip_clean. }
  unfold parse_chord. rewrite Hs.
  assert (Hm := match_quality_slash q b Hq Hb).
  assert (Hp : chord_pattern (r ++ q ++ "/" ++ b) = Some (r, q, Some b)).
  { destruct r as [|c0 [|a [|? ?]]]; try discriminate Hr;
      cbn [is_pitch_class_root] in Hr.
    - unfold chord_pattern, match_note. cbn [String.append]. rewrite Hr.
      destruct q as [|a q'].
      + cbn [String.append] in *. now rewrite Hm.
      + specialize (Hacc eq_refl). cbn [begins_accidental] in Hacc.
        cbn [String.append] in *. now rewrite Hacc, Hm.
    - apply andb_true_iff in Hr as [H0 Ha].
      unfold chord_pattern, match_note. cbn [String.append] in Hm |- *.
      now rewrite H0, Ha, Hm. }
  now rewrite Hp.
Qed.




End GrammarClaims.






(** * The services built on the engine *)

Section Alphabet.

Lemma distinct_NoDup (l : list string) : distinct l = true -> NoDup l.
Proof.
  induction l as [|x r IH]; cbn [distinct]; intros H; constructor.
  - apply andb_true_iff in H as [H _]. apply negb_true_iff in H.
    intros Hin. assert (E : existsb (String.eqb x) r = true).
    { apply existsb_exists. exists x. split; [exact Hin|].
      apply String.eqb_refl. }
    now rewrite E in H.
  - apply andb_true_iff in H as [_ H]. now apply IH.
Qed.

Lemma in_alphabet_incl (l : list string) :
  in_alphabet l = true -> incl l chromatic_notes.
Proof.
  unfold in_alphabet. intros H x Hx.
  apply (proj1 (forallb_forall _ _) H) in Hx.
  apply existsb_exists in Hx as [y [Hy E]].
  apply String.eqb_eq in E. now subst.
Qed.

Lemma alphabet_in_getitem (x : string) :
  In x chromatic_notes ->
  exists i, (0 <= i < 12)%Z /\ getitem chromatic_notes i = Ok x.
Proof.
  unfold chromatic_notes at 1. cbn [In].
  intros [H|[H|[H|[H|[H|[H|[H|[H|[H|[H|[H|[H|[]]]]]]]]]]]]]; subst x;
    [exists 0%Z | exists 1%Z | exists 2%Z | exists 3%Z | exists 4%Z
     | exists 5%Z | exists 6%Z | exists 7%Z | exists 8%Z | exists 9%Z
     | exists 10%Z | exists 11%Z];
    (split; [lia | reflexivity]).
Qed.

Lemma dict_get_missing {V : Type} (d : list (string * V)) (k : string)
    (default : V) :
  ~ In k (List.map fst d) -> dict_get String.eqb d k default = default.
Proof.
  induction d as [|[k' v] d IH]; cbn; [reflexivity|]. intros H.
  destruct (String.eqb k' k) eqn:E.
  - apply String.eqb_eq in E. elim H. now left.
  - apply IH. intros Hin. apply H. now right.
Qed.

Lemma dict_get_cases {V : Type} (d : list (string * V)) (k : string)
    (default : V) :
  dict_get String.eqb d k default = default \/
  In (dict_get String.eqb d k default) (List.map snd d).
Proof.
  induction d as [|[k' v] d IH]; cbn; [now left|].
  destruct (String.eqb k' k); [right; now left|].
  destruct IH as [H|H]; [now left | right; now right].
Qed.

Lemma quality_eqb_eq (a b : ChordQuality.t) :
  ChordQuality.eqb a b = true <-> a = b.
Proof. destruct a, b; cbn; split; intros H; congruence. Qed.

End Alphabet.

(** ** Notes of scales and chords *)

Section Notes.

Import ImprovisationConsultantService HarmonyAnalyzerService.

Ltac each_index i H :=
  assert (i = 0 \/ i = 1 \/ i = 2 \/ i = 3 \/ i = 4 \/ i = 5 \/ i = 6
          \/ i = 7 \/ i = 8 \/ i = 9 \/ i = 10 \/ i = 11)%Z as H by lia;
  repeat (destruct H as [H|H]; [subst i|]); [..|subst i].

Lemma incl_check (l m : list string) :
  forallb (fun x => existsb (String.eqb x) m) l = true -> incl l m.
Proof.
  intros H x Hx. apply (proj1 (forallb_forall _ _) H) in Hx.
  apply existsb_exists in Hx as [y [Hy E]].
  apply String.eqb_eq in E. now subst.
Qed.

Lemma not_in_check (x : string) (m : list string) :
  existsb (String.eqb x) m = false -> ~ In x m.
Proof.
  intros H Hin.
  assert (E : existsb (String.eqb x) m = true).
  { apply existsb_exists. exists x. split; [exact Hin|].
    apply String.eqb_refl. }
  now rewrite E in H.
Qed.

Lemma notes_loop_scale (i : Z) (intervals : list Z) :
  (0 <= i < 12)%Z ->
  In intervals ([0; 2; 4; 5; 7; 9; 11]%Z :: List.map snd modes) ->
  exists ns,
    notes_loop [] i intervals = Ok ns /\
    List.length ns = 7%nat /\
    getitem chromatic_notes i = Ok (List.hd EmptyString ns) /\
    distinct ns = true /\ in_alphabet ns = true.
Proof.
  intros Hi H. cbn [In List.map snd modes] in H.
  each_index i Hc;
    (destruct H as [H|[H|[H|[H|[H|[H|[H|[H|[]]]]]]]]]; subst intervals;
     eexists; (split; [reflexivity|]); repeat split).
Qed.

Lemma scale_notes_ok (i : Z) (root mode : string) :
  (0 <= i < 12)%Z -> getitem chromatic_notes i = Ok root ->
  exists ns,
    _get_scale_notes root mode = Ok ns /\
    List.length ns = 7%nat /\ List.hd EmptyString ns = root /\
    NoDup ns /\ incl ns chromatic_notes.
Proof.
  intros Hi Hr. unfold _get_scale_notes.
  rewrite (alphabet_index i root Hi Hr). cbn [bind].
  destruct (notes_loop_scale i
              (dict_get String.eqb modes mode [0; 2; 4; 5; 7; 9; 11]%Z) Hi)
    as [ns [Hn [Hl [Hh [Hd Ha]]]]].
  { destruct (dict_get_cases modes mode [0; 2; 4; 5; 7; 9; 11]%Z)
      as [->|H]; [now left | now right]. }
  exists ns. split; [exact Hn|]. split; [exact Hl|].
  split; [rewrite Hr in Hh; now inversion Hh|].
  split; [now apply distinct_NoDup | now apply in_alphabet_incl].
Qed.

Lemma scale_notes_fallback (root mode : string) :
  ~ In mode (List.map fst modes) ->
  _get_scale_notes root mode = _get_scale_notes root "ionian".
Proof.
  intros H. unfold _get_scale_notes.
  now rewrite (dict_get_missing modes mode _ H).
Qed.

Lemma chord_notes_ok (i : Z) (chord : Chord) :
  (0 <= i < 12)%Z -> getitem chromatic_notes i = Ok (root chord) ->
  exists cn,
    _get_chord_notes chord = Ok cn /\
    List.hd EmptyString cn = root chord /\
    List.length cn
    = (if contains "7" (ChordQuality.value (quality chord))
          || ChordQuality.eqb (quality chord) ChordQuality.HALF_DIMINISHED
       then 4 else 3)%nat /\
    distinct cn = true /\ in_alphabet cn = true.
Proof.
  intros Hi Hr. destruct chord as [r q e b f n]. cbn [root quality] in *.
  each_index i Hc; vm_compute in Hr; inversion Hr; subst r;
    destruct q; eexists; (split; [reflexivity|]); repeat split.
Qed.

Lemma strong_notes_ok (i : Z) (chord : Chord) :
  (0 <= i < 12)%Z -> getitem chromatic_notes i = Ok (root chord) ->
  exists ns cn,
    _get_strong_notes chord = Ok ns /\
    _get_chord_notes chord = Ok cn /\
    List.hd EmptyString ns = root chord /\
    (1 <= List.length ns <= 3)%nat /\
    distinct ns = true /\ in_alphabet ns = true /\
    (ChordQuality.eqb (quality chord) ChordQuality.DIMINISHED7
     || forallb (fun x => existsb (String.eqb x) cn) ns) = true.
Proof.
  intros Hi Hr. destruct chord as [r q e b f n]. cbn [root quality] in *.
  each_index i Hc; vm_compute in Hr; inversion Hr; subst r;
    destruct q; do 2 eexists; (split; [reflexivity|]);
    (split; [reflexivity|]); repeat split; cbn; lia.
Qed.

Lemma avoid_notes_ok (i : Z) (chord : Chord) :
  (0 <= i < 12)%Z -> getitem chromatic_notes i = Ok (root chord) ->
  quality chord = ChordQuality.MAJOR7 ->
  exists a cn,
    getitem chromatic_notes ((i + 5) mod 12) = Ok a /\
    _get_avoid_notes chord = Ok [a] /\
    _get_chord_notes chord = Ok cn /\
    existsb (String.eqb a) cn = false.
Proof.
  intros Hi Hr Hq. destruct chord as [r q e b f n].
  cbn [root quality] in *. subst q.
  each_index i Hc; vm_compute in Hr; inversion Hr; subst r;
    do 2 eexists; repeat split.
Qed.

Lemma avoid_notes_total (chord : Chord) :
  In (root chord) chromatic_notes ->
  exists a, _get_avoid_notes chord = Ok a.
Proof.
  intros H. unfold _get_avoid_notes.
  destruct (String.eqb (ChordQuality.value (quality chord)) "major7");
    [|eauto].
  destruct (alphabet_in_getitem _ H) as [i [Hi Hr]].
  rewrite (alphabet_index i _ Hi Hr). cbn [bind].
  assert (Hj : (0 <= (i + 5) mod 12 < 12)%Z)
    by (apply Z.mod_pos_bound; lia).
  destruct (alphabet_getitem _ Hj) as [x [-> _]]. cbn. eauto.
Qed.

End Notes.

Import ImprovisationConsultantService HarmonyAnalyzerService.

(** X12. The notes of a scale.  For a root of the alphabet and any mode
    name, the scale has seven notes of the alphabet, all different, the
    first being the root; a mode name that is no key of the mode table
    (such as "chromatic" or "altered", which the engine recommends) gives
    the notes of the ionian mode. *)
Theorem scale_notes_shape (i : Z) (root mode : string) :
  (0 <= i < 12)%Z -> getitem chromatic_notes i = Ok root ->
  (exists ns,
     _get_scale_notes root mode = Ok ns /\
     List.length ns = 7%nat /\ List.hd EmptyString ns = root /\
     NoDup ns /\ incl ns chromatic_notes) /\
  (~ In mode (List.map fst modes) ->
   _get_scale_notes root mode = _get_scale_notes root "ionian").
Proof.
  intros Hi Hr. split; [now apply (scale_notes_ok i)|].
  apply scale_notes_fallback.
Qed.

Lemma scale_notes_shape_witness :
  _get_scale_notes "A" "chromatic" = _get_scale_notes "A" "ionian" /\
  _get_scale_notes "A" "ionian"
  = Ok ["A"; "B"; "C#"; "D"; "E"; "F#"; "G#"].
Proof.
  split; [|reflexivity].
  apply (proj2 (scale_notes_shape 9 "A" "chromatic" ltac:(lia) eq_refl)).
  cbn. intuition discriminate.
Defined.

(** X13. The notes of a chord.  For a root of the alphabet the chord has
    notes of the alphabet, all different, the first being the root: four
    for the five seventh qualities and three for the others; a suspended
    chord, absent from the interval table, gets the notes of the major
    triad. *)
Theorem chord_notes_shape (i : Z) (chord : Chord) :
  (0 <= i < 12)%Z -> getitem chromatic_notes i = Ok (root chord) ->
  (exists cn,
     _get_chord_notes chord = Ok cn /\
     List.hd EmptyString cn = root chord /\
     List.length cn
     = match quality chord with
       | ChordQuality.MAJOR7 | ChordQuality.MINOR7 | ChordQuality.DOMINANT
       | ChordQuality.HALF_DIMINISHED | ChordQuality.DIMINISHED7 => 4%nat
       | _ => 3%nat
       end /\
     NoDup cn /\ incl cn chromatic_notes) /\
  (quality chord = ChordQuality.SUSPENDED4 \/
   quality chord = ChordQuality.SUSPENDED2 ->
   _get_chord_notes chord
   = _get_chord_notes
       (mkChord (root chord) ChordQuality.MAJOR [] None None None)).
Proof.
  intros Hi Hr. split.
  - destruct (chord_notes_ok i chord Hi Hr) as [cn [Hc [Hh [Hl [Hd Ha]]]]].
    exists cn. split; [exact Hc|]. split; [exact Hh|].
    split; [rewrite Hl; now destruct (quality chord)|].
    split; [now apply distinct_NoDup | now apply in_alphabet_incl].
  - unfold _get_chord_notes. cbn [root quality].
    intros [-> | ->]; reflexivity.
Qed.

Lemma chord_notes_shape_witness :
  _get_chord_notes (mkChord "D" ChordQuality.SUSPENDED4 [] None None None)
  = Ok ["D"; "F#"; "A"].
Proof.
  rewrite (proj2 (chord_notes_shape 2
                    (mkChord "D" ChordQuality.SUSPENDED4 [] None None None)
                    ltac:(lia) eq_refl) (or_introl eq_refl)).
  reflexivity.
Defined.

(** X14. The strong notes of a chord on a root of the alphabet: between
    one and three notes of the alphabet, all different, the first being
    the root; for every quality but diminished-seventh each strong note
    is one of the notes of the chord. *)
Theorem strong_notes_are_chord_notes (i : Z) (chord : Chord) :
  (0 <= i < 12)%Z -> getitem chromatic_notes i = Ok (root chord) ->
  exists ns cn,
    _get_strong_notes chord = Ok ns /\
    _get_chord_notes chord = Ok cn /\
    List.hd EmptyString ns = root chord /\
    (1 <= List.length ns <= 3)%nat /\
    NoDup ns /\ incl ns chromatic_notes /\
    (quality chord <> ChordQuality.DIMINISHED7 -> incl ns cn).
Proof.
  intros Hi Hr.
  destruct (strong_notes_ok i chord Hi Hr)
    as [ns [cn [Hs [Hc [Hh [Hl [Hd [Ha Hi']]]]]]]].
  exists ns, cn. repeat (split; [assumption|]).
  split; [now apply distinct_NoDup|].
  split; [now apply in_alphabet_incl|].
  intros Hq. apply orb_true_iff in Hi' as [E|E].
  - apply quality_eqb_eq in E. contradiction.
  - now apply incl_check.
Qed.

Lemma strong_notes_are_chord_notes_witness :
  exists ns cn,
    _get_strong_notes (mkChord "G" ChordQuality.DOMINANT [] None None None)
    = Ok ns /\
    _get_chord_notes (mkChord "G" ChordQuality.DOMINANT [] None None None)
    = Ok cn /\
    incl ns cn.
Proof.
  destruct (strong_notes_are_chord_notes 7
              (mkChord "G" ChordQuality.DOMINANT [] None None None)
              ltac:(lia) eq_refl)
    as [ns [cn [Hs [Hc [_ [_ [_ [_ H]]]]]]]].
  exists ns, cn. split; [exact Hs|]. split; [exact Hc|].
  apply H. discriminate.
Defined.

(** X15. Avoid notes.  Only a major-seventh chord has an avoid note; on a
    root of the alphabet it is the one note a fourth (5 semitones) above
    the root, and it is none of the notes of the chord.  For any other
    quality the list is empty and the root is not looked up. *)
Theorem avoid_note_rule (chord : Chord) :
  (quality chord <> ChordQuality.MAJOR7 ->
   _get_avoid_notes chord = Ok []) /\
  (forall i,
     (0 <= i < 12)%Z -> getitem chromatic_notes i = Ok (root chord) ->
     quality chord = ChordQuality.MAJOR7 ->
     exists a cn,
       getitem chromatic_notes ((i + 5) mod 12) = Ok a /\
       _get_avoid_notes chord = Ok [a] /\
       _get_chord_notes chord = Ok cn /\ ~ In a cn).
Proof.
  split.
  - intros Hq. unfold _get_avoid_notes.
    destruct (quality chord); try reflexivity. now elim Hq.
  - intros i Hi Hr Hq.
    destruct (avoid_notes_ok i chord Hi Hr Hq) as [a [cn [Ha [Hv [Hc Hn]]]]].
    exists a, cn. repeat (split; [assumption|]). now apply not_in_check.
Qed.

Lemma avoid_note_rule_witness :
  _get_avoid_notes (mkChord "Db" ChordQuality.MINOR7 [] None None None)
  = Ok [] /\
  _get_avoid_notes (mkChord "C" ChordQuality.MAJOR7 [] None None None)
  = Ok ["F"].
Proof.
  split.
  - apply (proj1 (avoid_note_rule
                    (mkChord "Db" ChordQuality.MINOR7 [] None None None))).
    discriminate.
  - destruct (proj2 (avoid_note_rule
                       (mkChord "C" ChordQuality.MAJOR7 [] None None None))
                0%Z ltac:(lia) eq_refl eq_refl)
      as [a [cn [Ha [Hv _]]]].
    rewrite Hv. vm_compute in Ha. now inversion Ha.
Defined.

Section Approaches.

Ltac each_index i H :=
  assert (i = 0 \/ i = 1 \/ i = 2 \/ i = 3 \/ i = 4 \/ i = 5 \/ i = 6
          \/ i = 7 \/ i = 8 \/ i = 9 \/ i = 10 \/ i = 11)%Z as H by lia;
  repeat (destruct H as [H|H]; [subst i|]); [..|subst i].

Lemma approach_notes_ok (i : Z) (t : string) :
  (0 <= i < 12)%Z -> getitem chromatic_notes i = Ok t ->
  exists a lo hi,
    _get_approach_notes [t] = Ok [a] /\ target a = t /\
    getitem chromatic_notes ((i - 1) mod 12) = Ok (chromatic_below a) /\
    getitem chromatic_notes ((i + 1) mod 12) = Ok (chromatic_above a) /\
    _get_approach_notes [chromatic_below a] = Ok [lo] /\
    chromatic_above lo = t /\
    _get_approach_notes [chromatic_above a] = Ok [hi] /\
    chromatic_below hi = t /\
    diatonic_approaches a = [chromatic_below lo; chromatic_above hi].
Proof.
  intros Hi Hr.
  each_index i Hc; vm_compute in Hr; inversion Hr; subst t;
    do 3 eexists; (split; [reflexivity|]); (split; [reflexivity|]);
    (split; [reflexivity|]); (split; [reflexivity|]);
    (split; [reflexivity|]); (split; [reflexivity|]);
    (split; [reflexivity|]); split; reflexivity.
Qed.

Lemma inversions_ok (i : Z) (chord : Chord) :
  (0 <= i < 12)%Z -> getitem chromatic_notes i = Ok (root chord) ->
  exists invs cn c0,
    _get_chord_notes chord = Ok cn /\
    _get_inversions chord = Ok invs /\
    invs
    = (root chord ++ ChordQuality.value (quality chord))
      :: List.map
           (fun n => root chord ++ ChordQuality.value (quality chord)
                     ++ "/" ++ n)
           (List.tl cn) /\
    parse_chord (root chord ++ ChordQuality.value (quality chord)) = Ok c0 /\
    root c0 = root chord /\ bass c0 = None /\
    ChordQuality.eqb (quality c0) (quality chord)
    = ChordQuality.eqb (quality chord) ChordQuality.MINOR
      || ChordQuality.eqb (quality chord) ChordQuality.DOMINANT /\
    forallb
      (fun n =>
         match parse_chord (root chord ++ ChordQuality.value (quality chord)
                            ++ "/" ++ n) with
         | Ok c =>
             String.eqb (root c) (root chord)
             && match bass c with
                | Some b => String.eqb b n
                | None => false
                end
         | Raise _ => false
         end)
      (List.tl cn) = true.
Proof.
  intros Hi Hr. destruct chord as [r q e b f n]. cbn [root quality] in *.
  each_index i Hc; vm_compute in Hr; inversion Hr; subst r;
    destruct q; do 3 eexists; (split; [reflexivity|]);
    (split; [reflexivity|]); (split; [reflexivity|]);
    (split; [reflexivity|]); repeat split.
Qed.

End Approaches.

(** X16. Approach notes wrap around the octave.  For a target of the
    alphabet the chromatic approaches are the entries one below and one
    above, modulo 12; approaching from below and then from above, or the
    other way round, comes back to the target, and the diatonic
    approaches are the notes two steps away on either side. *)
Theorem approach_notes_round_trip (i : Z) (t : string) :
  (0 <= i < 12)%Z -> getitem chromatic_notes i = Ok t ->
  exists a lo hi,
    _get_approach_notes [t] = Ok [a] /\ target a = t /\
    getitem chromatic_notes ((i - 1) mod 12) = Ok (chromatic_below a) /\
    getitem chromatic_notes ((i + 1) mod 12) = Ok (chromatic_above a) /\
    _get_approach_notes [chromatic_below a] = Ok [lo] /\
    chromatic_above lo = t /\
    _get_approach_notes [chromatic_above a] = Ok [hi] /\
    chromatic_below hi = t /\
    diatonic_approaches a = [chromatic_below lo; chromatic_above hi].
Proof. exact (approach_notes_ok i t). Qed.

Lemma approach_notes_round_trip_witness :
  exists a,
    _get_approach_notes ["C"] = Ok [a] /\
    chromatic_below a = "B" /\ chromatic_above a = "C#".
Proof.
  destruct (approach_notes_round_trip 0 "C" ltac:(lia) eq_refl)
    as [a [lo [hi [Ha [_ [Hb [Hc _]]]]]]].
  exists a. split; [exact Ha|].
  vm_compute in Hb, Hc. inversion Hb. inversion Hc. now split.
Defined.

(** X17. The inversions of a chord on a root of the alphabet: one name per
    note of the chord; the first is root + quality name, each other adds
    a slash and the matching note of the chord.  Parsed back, every name
    has the root of the chord and the named note as bass, but the quality
    read back is the quality of the chord only for minor and
    dominant-seventh chords. *)
Theorem inversions_parse_back (i : Z) (chord : Chord) :
  (0 <= i < 12)%Z -> getitem chromatic_notes i = Ok (root chord) ->
  exists invs cn c0,
    _get_chord_notes chord = Ok cn /\
    _get_inversions chord = Ok invs /\
    List.length invs = List.length cn /\
    invs
    = (root chord ++ ChordQuality.value (quality chord))
      :: List.map
           (fun n => root chord ++ ChordQuality.value (quality chord)
                     ++ "/" ++ n)
           (List.tl cn) /\
    parse_chord (root chord ++ ChordQuality.value (quality chord)) = Ok c0 /\
    root c0 = root chord /\ bass c0 = None /\
    (quality c0 = quality chord <->
     quality chord = ChordQuality.MINOR \/
     quality chord = ChordQuality.DOMINANT) /\
    (forall n, In n (List.tl cn) ->
       exists c,
         parse_chord (root chord ++ ChordQuality.value (quality chord)
                      ++ "/" ++ n) = Ok c /\
         root c = root chord /\ bass c = Some n).
Proof.
  intros Hi Hr.
  destruct (inversions_ok i chord Hi Hr)
    as [invs [cn [c0 [Hc [Hv [He [Hp [Hr0 [Hb0 [Hq Hall]]]]]]]]]].
  exists invs, cn, c0. split; [exact Hc|]. split; [exact Hv|].
  split.
  { rewrite He. cbn [List.length]. rewrite length_map.
    destruct (chord_notes_ok i chord Hi Hr) as [cn' [Hc' [_ [Hl _]]]].
    rewrite Hc in Hc'. inversion Hc'; subst cn'.
    destruct cn; [exfalso|reflexivity].
    match type of Hl with
    | _ = (if ?t then _ else _) => destruct t
    end; discriminate Hl. }
  split; [exact He|]. split; [exact Hp|]. split; [exact Hr0|].
  split; [exact Hb0|]. split.
  - rewrite <- quality_eqb_eq, Hq, orb_true_iff, !quality_eqb_eq.
    reflexivity.
  - intros n Hn. apply (proj1 (forallb_forall _ _) Hall) in Hn.
    cbv beta in Hn.
    destruct (parse_chord (root chord
                           ++ ChordQuality.value (quality chord)
                           ++ "/" ++ n)) as [c|x];
      [|discriminate].
    exists c. split; [reflexivity|].
    apply andb_true_iff in Hn as [H1 H2].
    apply String.eqb_eq in H1. split; [exact H1|].
    destruct (bass c) as [b|]; [|discriminate].
    apply String.eqb_eq in H2. now subst.
Qed.

Lemma inversions_parse_back_witness :
  _get_inversions (mkChord "C" ChordQuality.MAJOR7 [] None None None)
  = Ok ["Cmajor7"; "Cmajor7/E"; "Cmajor7/G"; "Cmajor7/B"] /\
  exists c0,
    parse_chord "Cmajor7" = Ok c0 /\ quality c0 <> ChordQuality.MAJOR7.
Proof.
  destruct (inversions_parse_back 0
              (mkChord "C" ChordQuality.MAJOR7 [] None None None)
              ltac:(lia) eq_refl)
    as [invs [cn [c0 [Hc [Hv [_ [He [Hp [_ [_ [Hq _]]]]]]]]]]].
  split.
  - rewrite Hv, He. vm_compute in Hc. inversion Hc. reflexivity.
  - exists c0. split; [exact Hp|]. cbn [quality] in Hq.
    intros E. destruct (proj1 Hq E); discriminate.
Defined.

(** ** The chord-scale mapping of the improvisation guide *)

Section Mapping.

Lemma map_loop_acc (acc : list chord_mapping)
    (analysis : list analysis_entry) :
  map_chord_to_scales_loop acc analysis
  = m <- map_chord_to_scales_loop [] analysis ;; Ok (acc ++ m)%list.
Proof.
  revert acc. induction analysis as [|e l IH]; intros acc;
    cbn [map_chord_to_scales_loop].
  - cbn. now rewrite app_nil_r.
  - destruct (_get_scale_notes _ _) as [ns|x]; [|reflexivity].
    cbn [bind].
    destruct (_get_avoid_notes _) as [av|x]; [|reflexivity]. cbn [bind].
    destruct (_get_strong_notes _) as [st|x]; [|reflexivity]. cbn [bind].
    rewrite IH. symmetry. rewrite IH. symmetry.
    destruct (map_chord_to_scales_loop [] l) as [m|x]; [|reflexivity].
    cbn [bind]. unfold PyList.append. cbn [app].
    now rewrite <- app_assoc.
Qed.

Lemma mapping_of_entry (e : analysis_entry) :
  In (root (chord e)) chromatic_notes ->
  exists ns av st,
    _get_scale_notes (root (chord e)) (first_scale (scales_recommended e))
    = Ok ns /\
    _get_avoid_notes (chord e) = Ok av /\
    _get_strong_notes (chord e) = Ok st /\
    List.length ns = 7%nat /\
    List.hd EmptyString ns = root (chord e) /\
    List.hd EmptyString st = root (chord e).
Proof.
  intros H. destruct (alphabet_in_getitem _ H) as [i [Hi Hr]].
  destruct (scale_notes_ok i _ (first_scale (scales_recommended e)) Hi Hr)
    as [ns [Hn [Hl [Hh _]]]].
  destruct (avoid_notes_total (chord e) H) as [av Hav].
  destruct (strong_notes_ok i (chord e) Hi Hr)
    as [st [cn [Hs [_ [Hsh _]]]]].
  exists ns, av, st. now repeat split.
Qed.

Lemma recommend_scales_cons (c : Chord) (key : string) :
  exists s alt,
    _recommend_scales c key = s :: alt /\
    (if Nat.ltb 1 (List.length (s :: alt)) then slice_from_1 (s :: alt)
     else []) = alt.
Proof.
  unfold _recommend_scales.
  destruct (quality c); cbn; eauto.
Qed.

Lemma map_chord_to_scales_ok (analysis : list analysis_entry) :
  Forall (fun e => In (root (chord e)) chromatic_notes /\
                   exists c key,
                     scales_recommended e = _recommend_scales c key)
    analysis ->
  exists m,
    _map_chord_to_scales analysis = Ok m /\
    Forall2
      (fun e x =>
         mapped_chord x = chord_symbol e /\
         scales_recommended e = primary_scale x :: alternative_scales x /\
         List.length (scale_notes x) = 7%nat /\
         List.hd EmptyString (scale_notes x) = root (chord e) /\
         List.hd EmptyString (strong_notes x) = root (chord e))
      analysis m.
Proof.
  unfold _map_chord_to_scales.
  induction analysis as [|e l IH]; intros H.
  - exists []. split; [reflexivity | constructor].
  - inversion H as [|? ? [Hin [c [key Hs]]] Hl]; subst.
    destruct (IH Hl) as [m [Hm Hf]].
    destruct (mapping_of_entry e Hin) as [ns [av [st [Hn [Ha [Hst [L [Hh Hsh]]]]]]]].
    destruct (recommend_scales_cons c key) as [s [alt [Hc Halt]]].
    cbn [map_chord_to_scales_loop].
    rewrite Hs, Hc in Hn |- *. rewrite Halt, Hn, Ha, Hst. cbn [bind].
    rewrite map_loop_acc, Hm. cbn [bind].
    eexists. split; [reflexivity|].
    unfold PyList.append. cbn [app].
    constructor; [|exact Hf].
    cbn [mapped_chord primary_scale alternative_scales scale_notes
         strong_notes first_scale].
    rewrite Hs, Hc. now repeat split.
Qed.

End Mapping.

(** X18. The chord-scale mapping never fails on an analysis that the
    engine returned: it gives one mapping per analysed symbol, in order,
    whose primary and alternative scales are the recommended scales of
    the chord, whose scale has seven notes starting on the root, and
    whose strong notes start with the root. *)
Theorem mapping_defined_on_analysis (symbols : list string) (key : string)
    (analysis : list analysis_entry) :
  analyze_chord_progression symbols key = Ok analysis ->
  exists m,
    _map_chord_to_scales analysis = Ok m /\
    List.map mapped_chord m = symbols /\
    Forall2
      (fun e x =>
         mapped_chord x = chord_symbol e /\
         scales_recommended e = primary_scale x :: alternative_scales x /\
         List.length (scale_notes x) = 7%nat /\
         List.hd EmptyString (scale_notes x) = root (chord e) /\
         List.hd EmptyString (strong_notes x) = root (chord e))
      analysis m.
Proof.
  intros H. pose proof (analyze_entries symbols key analysis H) as He.
  assert (Hall : Forall
                   (fun e => In (root (chord e)) chromatic_notes /\
                             exists c key,
                               scales_recommended e
                               = _recommend_scales c key) analysis).
  { clear H. induction He as [|s e l l' [_ [c Hc]] _ IH]; constructor;
      [|exact IH].
    destruct Hc as [_ [Hr [_ [_ [_ [Hn [_ [_ [_ [_ Hs]]]]]]]]]].
    split; [|eauto]. rewrite Hr.
    unfold _get_roman_numeral in Hn.
    destruct (index chromatic_notes key) as [i|x]; [|discriminate].
    cbn [bind] in Hn.
    destruct (index chromatic_notes (root c)) as [j|x] eqn:Hj;
      [|discriminate].
    exact (index_ok_in _ _ _ Hj). }
  destruct (map_chord_to_scales_ok analysis Hall) as [m [Hm Hf]].
  exists m. split; [exact Hm|]. split; [|exact Hf].
  clear -He Hf. revert m Hf.
  induction He as [|s e l l' [Hs _] _ IH]; intros m Hf;
    inversion Hf as [|? x ? m' [Hx _] Hf']; subst; [reflexivity|].
  cbn [List.map]. rewrite Hx. f_equal. now apply IH.
Qed.

Lemma mapping_defined_on_analysis_witness :
  exists analysis m,
    analyze_chord_progression ["Dm7"; "G7"; "C"] "C" = Ok analysis /\
    _map_chord_to_scales analysis = Ok m /\
    List.map mapped_chord m = ["Dm7"; "G7"; "C"].
Proof.
  eexists.
  destruct (mapping_defined_on_analysis ["Dm7"; "G7"; "C"] "C" _ eq_refl)
    as [m [Hm [Hs _]]].
  exists m. split; [reflexivity|]. split; [exact Hm | exact Hs].
Defined.

(** ** The substitution rules *)

Section Substitutions.

Ltac each_index i H :=
  assert (i = 0 \/ i = 1 \/ i = 2 \/ i = 3 \/ i = 4 \/ i = 5 \/ i = 6
          \/ i = 7 \/ i = 8 \/ i = 9 \/ i = 10 \/ i = 11)%Z as H by lia;
  repeat (destruct H as [H|H]; [subst i|]); [..|subst i].

Lemma fifth_up_fourth_up (i : Z) :
  (0 <= i < 12)%Z -> (((i + 7) mod 12 + 5) mod 12 = i)%Z.
Proof. intros Hi. each_index i Hc; reflexivity. Qed.

Lemma secondary_dominant_ok (i : Z) (chord : Chord) (key : string) :
  (0 <= i < 12)%Z -> getitem chromatic_notes i = Ok (root chord) ->
  is_triad chord = true ->
  exists d,
    getitem chromatic_notes ((i + 7) mod 12) = Ok d /\
    _get_secondary_dominant_options chord key
    = Ok [mkSubstitution (d ++ "7") "secondary_dominant"
            ("Dominante secundário que resolve em " ++ root chord)
            "Ian Guest Vol. 2 p.26-45"] /\
    parse_chord (d ++ "7")
    = Ok (mkChord d ChordQuality.DOMINANT [] None None None) /\
    getitem chromatic_notes (((i + 7) mod 12 + 5) mod 12)
    = Ok (root chord).
Proof.
  intros Hi Hr Ht.
  assert (Hj : (0 <= (i + 7) mod 12 < 12)%Z)
    by (apply Z.mod_pos_bound; lia).
  destruct (alphabet_getitem _ Hj) as [d [Hd Hp]].
  exists d. split; [exact Hd|]. split; [|split; [exact Hp|]].
  - unfold _get_secondary_dominant_options.
    assert (E : existsb (String.eqb (ChordQuality.value (quality chord)))
                  ["major"; "minor"] = true).
    { unfold is_triad in Ht. destruct (quality chord);
        try discriminate Ht; reflexivity. }
    rewrite E, (alphabet_index i _ Hi Hr). cbn [bind]. now rewrite Hd.
  - now rewrite (fifth_up_fourth_up i Hi).
Qed.

Lemma secondary_dominant_none (chord : Chord) (key : string) :
  is_triad chord = false ->
  _get_secondary_dominant_options chord key = Ok [].
Proof.
  unfold is_triad, _get_secondary_dominant_options.
  destruct (quality chord); try discriminate; reflexivity.
Qed.

Lemma chord_substitutions_ok (i : Z) (chord : Chord) (key style : string)
    (position total_chords : Z) :
  (0 <= i < 12)%Z -> getitem chromatic_notes i = Ok (root chord) ->
  exists subs,
    _get_chord_substitutions chord key style position total_chords
    = Ok subs /\
    List.map sub_type subs
    = ((if ChordQuality.eqb (quality chord) ChordQuality.DOMINANT
        then ["tritone_substitution"] else [])
       ++ (if ChordQuality.eqb (quality chord) ChordQuality.MAJOR
           then ["modal_borrowing"] else [])
       ++ (if (position <? total_chords - 1)%Z && is_triad chord
           then ["secondary_dominant"] else []))%list /\
    forallb
      (fun s =>
         negb (String.eqb (sub_type s) "modal_borrowing")
         || (String.eqb (sub_chord s) (root chord ++ "m")
             && match parse_chord (sub_chord s) with
                | Ok c' =>
                    String.eqb (root c') (root chord)
                    && ChordQuality.eqb (quality c') ChordQuality.MINOR
                | Raise _ => false
                end))
      subs = true.
Proof.
  intros Hi Hr. destruct chord as [r q e b f n]. cbn [root quality] in *.
  unfold _get_chord_substitutions.
  destruct (position <? total_chords - 1)%Z;
    each_index i Hc; vm_compute in Hr; inversion Hr; subst r;
    destruct q; eexists; (split; [reflexivity|]); split; reflexivity.
Qed.

End Substitutions.

(** X19. The secondary dominant of a chord.  For a plain major or minor
    chord on a root of the alphabet the rule proposes one candidate: the
    alphabet entry a fifth (7 semitones) above the root, followed by "7";
    it parses to a dominant-seventh chord on that entry, and a fourth
    (5 semitones) above that entry is the root again.  For every other
    quality the rule proposes nothing and does not look the root up. *)
Theorem secondary_dominant_rule (chord : Chord) (key : string) :
  (is_triad chord = false ->
   _get_secondary_dominant_options chord key = Ok []) /\
  (forall i,
     (0 <= i < 12)%Z -> getitem chromatic_notes i = Ok (root chord) ->
     is_triad chord = true ->
     exists d s c',
       getitem chromatic_notes ((i + 7) mod 12) = Ok d /\
       _get_secondary_dominant_options chord key = Ok [s] /\
       sub_chord s = d ++ "7" /\ sub_type s = "secondary_dominant" /\
       parse_chord (sub_chord s) = Ok c' /\
       root c' = d /\ quality c' = ChordQuality.DOMINANT /\
       getitem chromatic_notes (((i + 7) mod 12 + 5) mod 12)
       = Ok (root chord)).
Proof.
  split; [apply secondary_dominant_none|].
  intros i Hi Hr Ht.
  destruct (secondary_dominant_ok i chord key Hi Hr Ht)
    as [d [Hd [Ho [Hp Hb]]]].
  exists d. eexists.
  exists (mkChord d ChordQuality.DOMINANT [] None None None).
  split; [exact Hd|]. split; [exact Ho|]. now repeat split.
Qed.

Lemma secondary_dominant_rule_witness :
  _get_secondary_dominant_options
    (mkChord "Db" ChordQuality.DOMINANT [] None None None) "C" = Ok [] /\
  exists c',
    parse_chord ("E" ++ "7") = Ok c' /\
    quality c' = ChordQuality.DOMINANT.
Proof.
  split.
  - apply (proj1 (secondary_dominant_rule
                    (mkChord "Db" ChordQuality.DOMINANT [] None None None)
                    "C")).
    reflexivity.
  - destruct (proj2 (secondary_dominant_rule
                       (mkChord "A" ChordQuality.MINOR [] None None None)
                       "C") 9%Z ltac:(lia) eq_refl eq_refl)
      as [d [s [c' [Hd [_ [Hs [_ [Hp [_ [Hq _]]]]]]]]]].
    vm_compute in Hd. inversion Hd; subst d. rewrite Hs in Hp.
    exists c'. now split.
Defined.

(** X20. The kinds of substitution of a chord on a root of the alphabet,
    in the order they are listed: a tritone substitution exactly for a
    dominant-seventh chord, a modal borrowing exactly for a major chord,
    a secondary dominant exactly for a major or minor chord that is not
    the last of the progression.  The modal borrowing is the root
    followed by "m", which parses to the minor chord on the same root. *)
Theorem chord_substitution_kinds (i : Z) (chord : Chord)
    (key style : string) (position total_chords : Z) :
  (0 <= i < 12)%Z -> getitem chromatic_notes i = Ok (root chord) ->
  exists subs,
    _get_chord_substitutions chord key style position total_chords
    = Ok subs /\
    List.map sub_type subs
    = ((if ChordQuality.eqb (quality chord) ChordQuality.DOMINANT
        then ["tritone_substitution"] else [])
       ++ (if ChordQuality.eqb (quality chord) ChordQuality.MAJOR
           then ["modal_borrowing"] else [])
       ++ (if (position <? total_chords - 1)%Z && is_triad chord
           then ["secondary_dominant"] else []))%list /\
    (forall s, In s subs -> sub_type s = "modal_borrowing" ->
       sub_chord s = root chord ++ "m" /\
       exists c', parse_chord (sub_chord s) = Ok c' /\
                  root c' = root chord /\
                  quality c' = ChordQuality.MINOR).
Proof.
  intros Hi Hr.
  destruct (chord_substitutions_ok i chord key style position total_chords
              Hi Hr) as [subs [Hs [Hk Hm]]].
  exists subs. split; [exact Hs|]. split; [exact Hk|].
  intros s Hin Hty. apply (proj1 (forallb_forall _ _) Hm) in Hin.
  cbv beta in Hin. rewrite Hty in Hin. cbn [String.eqb negb orb] in Hin.
  change (String.eqb "modal_borrowing" "modal_borrowing") with true in Hin.
  cbn [negb orb] in Hin.
  apply andb_true_iff in Hin as [H1 H2]. apply String.eqb_eq in H1.
  split; [exact H1|].
  destruct (parse_chord (sub_chord s)) as [c'|x]; [|discriminate].
  apply andb_true_iff in H2 as [H2 H3]. apply String.eqb_eq in H2.
  apply quality_eqb_eq in H3. exists c'. now repeat split.
Qed.

Lemma chord_substitution_kinds_witness :
  exists subs,
    _get_chord_substitutions
      (mkChord "C" ChordQuality.MAJOR [] None None None) "C" "jazz" 0 2
    = Ok subs /\
    List.map sub_type subs = ["modal_borrowing"; "secondary_dominant"].
Proof.
  destruct (chord_substitution_kinds 0
              (mkChord "C" ChordQuality.MAJOR [] None None None)
              "C" "jazz" 0 2 ltac:(lia) eq_refl)
    as [subs [Hs [Hk _]]].
  exists subs. split; [exact Hs | exact Hk].
Defined.

(** ** Complete alternatives *)

Section Alternatives.

Lemma triad_values (c : Chord) :
  existsb (String.eqb (ChordQuality.value (quality c))) ["major"; "minor"]
  = is_triad c.
Proof. unfold is_triad. now destruct (quality c). Qed.

Lemma dominant_value (c : Chord) :
  String.eqb (ChordQuality.value (quality c)) "dominant7"
  = ChordQuality.eqb (quality c) ChordQuality.DOMINANT.
Proof. now destruct (quality c). Qed.

Lemma secondary_loop_acc (acc l : list string) :
  add_secondary_dominants_loop acc l
  = r <- add_secondary_dominants_loop [] l ;; Ok (acc ++ r)%list.
Proof.
  revert acc. induction l as [|chord rest IH]; intros acc;
    cbn [add_secondary_dominants_loop].
  - cbn. now rewrite app_nil_r.
  - destruct rest as [|next rest'].
    + rewrite IH. symmetry. rewrite IH. cbn.
      unfold PyList.append. cbn. now rewrite app_nil_r.
    + destruct (parse_chord next) as [c|x]; [|reflexivity]. cbn [bind].
      destruct (existsb _ _).
      * destruct (index chromatic_notes (root c)) as [i|x]; [|reflexivity].
        cbn [bind].
        destruct (getitem chromatic_notes ((i + 7) mod 12)) as [d|x];
          [|reflexivity].
        cbn [bind]. rewrite IH. symmetry. rewrite IH. symmetry.
        destruct (add_secondary_dominants_loop [] (next :: rest'))
          as [r|x]; [|reflexivity].
        cbn [bind]. unfold extend. cbn [app]. now rewrite <- app_assoc.
      * rewrite IH. symmetry. rewrite IH. symmetry.
        destruct (add_secondary_dominants_loop [] (next :: rest'))
          as [r|x]; [|reflexivity].
        cbn [bind]. unfold PyList.append. cbn [app].
        now rewrite <- app_assoc.
Qed.

Lemma secondary_loop_step (acc : list string) (chord next : string)
    (rest : list string) :
  add_secondary_dominants_loop acc (chord :: next :: rest)
  = (next_chord <- parse_chord next ;;
     if existsb (String.eqb (ChordQuality.value (quality next_chord)))
          ["major"; "minor"]
     then
       i <- index chromatic_notes (root next_chord) ;;
       dom_root <- getitem chromatic_notes ((i + 7) mod 12) ;;
       add_secondary_dominants_loop
         (extend acc [chord; dom_root ++ "7"]) (next :: rest)
     else add_secondary_dominants_loop (append acc chord) (next :: rest)).
Proof. reflexivity. Qed.

Lemma secondary_loop_shape (rest : list string) :
  forall first res,
    add_secondary_dominants_loop [] (first :: rest) = Ok res ->
    exists inserted,
      Forall2 inserted_for rest inserted /\
      res = first
            :: concat (List.map (fun p => fst p ++ [snd p])%list
                         (combine inserted rest)).
Proof.
  induction rest as [|next rest' IH]; intros first res.
  - cbn. intros H. inversion H. exists []. split; [constructor|reflexivity].
  - rewrite secondary_loop_step.
    destruct (parse_chord next) as [c|x] eqn:Hp; [|discriminate].
    cbn [bind]. rewrite triad_values.
    destruct (is_triad c) eqn:Ht.
    + destruct (index chromatic_notes (root c)) as [i|x] eqn:Hi;
        [|discriminate].
      cbn [bind].
      destruct (getitem chromatic_notes ((i + 7) mod 12)) as [d|x] eqn:Hd;
        [|discriminate].
      cbn [bind]. rewrite secondary_loop_acc.
      destruct (add_secondary_dominants_loop [] (next :: rest'))
        as [r|x] eqn:Hr; [|cbn [bind]; discriminate].
      cbn [bind]. intros H. inversion H; subst res; clear H.
      destruct (IH next r Hr) as [inserted [Hf ->]].
      exists ([d ++ "7"] :: inserted). split.
      * constructor; [|exact Hf]. exists c. split; [exact Hp|].
        left. split; [exact Ht|]. exists i, d. now repeat split.
      * reflexivity.
    + rewrite secondary_loop_acc.
      destruct (add_secondary_dominants_loop [] (next :: rest'))
        as [r|x] eqn:Hr; [|cbn [bind]; discriminate].
      cbn [bind]. intros H. inversion H; subst res; clear H.
      destruct (IH next r Hr) as [inserted [Hf ->]].
      exists ([] :: inserted). split.
      * constructor; [|exact Hf]. exists c. split; [exact Hp|].
        right. now split.
      * reflexivity.
Qed.

Lemma inserted_length (rest : list string) (inserted : list (list string)) :
  Forall2 inserted_for rest inserted ->
  (List.length rest
   <= List.length
        (concat (List.map (fun p => fst p ++ [snd p])%list
                   (combine inserted rest)))
   <= 2 * List.length rest)%nat.
Proof.
  induction 1 as [|next ins rest' inserted' [c [_ H]] _ IH]; [cbn; lia|].
  cbn [combine List.map concat fst snd]. rewrite !length_app.
  destruct H as [[_ [i [d [_ [_ ->]]]]]|[_ ->]]; cbn [List.length]; lia.
Qed.

Lemma index_getitem (x : string) (i : Z) :
  index chromatic_notes x = Ok i ->
  (0 <= i < 12)%Z /\ getitem chromatic_notes i = Ok x.
Proof.
  intros Hi.
  destruct (alphabet_in_getitem x (index_ok_in _ _ _ Hi)) as [j [Hj Hg]].
  pose proof (alphabet_index j x Hj Hg) as Hi'.
  rewrite Hi in Hi'. inversion Hi'; subst j. now split.
Qed.

Lemma tritone_loop_acc (acc l : list string) :
  tritone_version_loop acc l
  = r <- tritone_version_loop [] l ;; Ok (acc ++ r)%list.
Proof.
  revert acc. induction l as [|chord rest IH]; intros acc;
    cbn [tritone_version_loop].
  - cbn. now rewrite app_nil_r.
  - destruct (parse_chord chord) as [c|x]; [|reflexivity]. cbn [bind].
    destruct (String.eqb _ _).
    + destruct (_get_tritone_substitution c) as [t|x]; [|reflexivity].
      cbn [bind]. rewrite IH. symmetry. rewrite IH. symmetry.
      destruct (tritone_version_loop [] rest) as [r|x]; [|reflexivity].
      cbn [bind]. unfold PyList.append. cbn [app].
      now rewrite <- app_assoc.
    + rewrite IH. symmetry. rewrite IH. symmetry.
      destruct (tritone_version_loop [] rest) as [r|x]; [|reflexivity].
      cbn [bind]. unfold PyList.append. cbn [app].
      now rewrite <- app_assoc.
Qed.

(* The tritone substitute of a chord is never the symbol it was parsed
   from. *)
Lemma tritone_differs (s t : string) (c : Chord) :
  parse_chord s = Ok c -> _get_tritone_substitution c = Ok t ->
  String.eqb t s = false.
Proof.
  intros Hp Ht. unfold _get_tritone_substitution in Ht.
  destruct (index chromatic_notes (root c)) as [i|x] eqn:Hi;
    [|discriminate].
  cbn [bind] in Ht. cbv zeta in Ht.
  destruct (getitem chromatic_notes ((i + 6) mod 12)) as [d|x] eqn:Hd;
    [|discriminate].
  cbn [bind] in Ht. inversion Ht; subst t; clear Ht.
  destruct (String.eqb (d ++ "7") s) eqn:E; [|reflexivity].
  apply String.eqb_eq in E. subst s. exfalso.
  destruct (index_getitem _ _ Hi) as [Hb _].
  assert (Hb' : (0 <= (i + 6) mod 12 < 12)%Z)
    by (apply Z.mod_pos_bound; lia).
  destruct (alphabet_getitem _ Hb') as [x [Hx Hpx]].
  rewrite Hd in Hx. inversion Hx; subst x.
  rewrite Hp in Hpx. inversion Hpx as [Hc]. subst c. cbn [root] in Hi.
  rewrite (alphabet_index _ _ Hb' Hd) in Hi.
  assert (Heq : ((i + 6) mod 12 = i)%Z) by congruence.
  pose proof (Z.div_mod (i + 6) 12). lia.
Qed.

(* An inserted secondary dominant is never the triad it leads to. *)
Lemma secondary_differs (next : string) (c : Chord) (i : Z) (d : string) :
  parse_chord next = Ok c -> is_triad c = true ->
  getitem chromatic_notes ((i + 7) mod 12) = Ok d ->
  String.eqb (d ++ "7") next = false.
Proof.
  intros Hp Ht Hd.
  destruct (String.eqb (d ++ "7") next) eqn:E; [|reflexivity].
  apply String.eqb_eq in E. subst next. exfalso.
  assert (Hb : (0 <= (i + 7) mod 12 < 12)%Z)
    by (apply Z.mod_pos_bound; lia).
  destruct (alphabet_getitem _ Hb) as [x [Hx Hpx]].
  rewrite Hd in Hx. inversion Hx; subst x.
  rewrite Hp in Hpx. inversion Hpx as [Hc]. subst c. discriminate Ht.
Qed.

Lemma tritone_loop_shape (l : list string) :
  forall tv,
    tritone_version_loop [] l = Ok tv ->
    List.length tv = List.length l /\
    list_eqb tv l = negb (existsb is_dominant_symbol l).
Proof.
  induction l as [|s rest IH]; intros tv.
  - cbn. intros H. inversion H. now split.
  - cbn [tritone_version_loop].
    destruct (parse_chord s) as [c|x] eqn:Hp; [|discriminate].
    cbn [bind]. rewrite dominant_value.
    destruct (ChordQuality.eqb (quality c) ChordQuality.DOMINANT) eqn:Hq.
    + destruct (_get_tritone_substitution c) as [t|x] eqn:Ht;
        [|discriminate].
      cbn [bind]. rewrite tritone_loop_acc.
      destruct (tritone_version_loop [] rest) as [r|x] eqn:Hr;
        [|cbn [bind]; discriminate].
      cbn [bind]. intros H. inversion H; subst tv; clear H.
      destruct (IH r eq_refl) as [Hl _].
      unfold PyList.append. cbn [app List.length list_eqb existsb].
      rewrite (tritone_differs s t c Hp Ht).
      assert (Hd : is_dominant_symbol s = true)
        by (unfold is_dominant_symbol; now rewrite Hp, Hq).
      rewrite Hd. split; [lia|]. reflexivity.
    + rewrite tritone_loop_acc.
      destruct (tritone_version_loop [] rest) as [r|x] eqn:Hr;
        [|cbn [bind]; discriminate].
      cbn [bind]. intros H. inversion H; subst tv; clear H.
      destruct (IH r eq_refl) as [Hl He].
      unfold PyList.append. cbn [app List.length list_eqb existsb].
      rewrite String.eqb_refl, He.
      assert (Hd : is_dominant_symbol s = false)
        by (unfold is_dominant_symbol; now rewrite Hp, Hq).
      rewrite Hd. split; [lia|]. reflexivity.
Qed.

Lemma secondary_loop_changed (rest : list string) :
  forall first sv,
    add_secondary_dominants_loop [] (first :: rest) = Ok sv ->
    list_eqb sv (first :: rest) = negb (existsb is_triad_symbol rest).
Proof.
  induction rest as [|next rest' IH]; intros first sv.
  - cbn. intros H. inversion H. cbn. now rewrite String.eqb_refl.
  - rewrite secondary_loop_step.
    destruct (parse_chord next) as [c|x] eqn:Hp; [|discriminate].
    cbn [bind]. rewrite triad_values.
    destruct (is_triad c) eqn:Ht.
    + destruct (index chromatic_notes (root c)) as [i|x] eqn:Hi;
        [|discriminate].
      cbn [bind].
      destruct (getitem chromatic_notes ((i + 7) mod 12)) as [d|x] eqn:Hd;
        [|discriminate].
      cbn [bind]. rewrite secondary_loop_acc.
      destruct (add_secondary_dominants_loop [] (next :: rest'))
        as [r|x] eqn:Hr; [|cbn [bind]; discriminate].
      cbn [bind]. intros H. inversion H; subst sv; clear H.
      unfold extend. cbn [app list_eqb existsb].
      rewrite (secondary_differs next c i d Hp Ht Hd).
      assert (Hs : is_triad_symbol next = true)
        by (unfold is_triad_symbol; now rewrite Hp, Ht).
      rewrite Hs. now rewrite Bool.andb_false_r.
    + rewrite secondary_loop_acc.
      destruct (add_secondary_dominants_loop [] (next :: rest'))
        as [r|x] eqn:Hr; [|cbn [bind]; discriminate].
      cbn [bind]. intros H. inversion H; subst sv; clear H.
      unfold PyList.append. cbn [app existsb].
      change (list_eqb (first :: r) (first :: next :: rest'))
        with (String.eqb first first && list_eqb r (next :: rest')).
      rewrite String.eqb_refl, (IH next r Hr).
      assert (Hs : is_triad_symbol next = false)
        by (unfold is_triad_symbol; now rewrite Hp, Ht).
      rewrite Hs. reflexivity.
Qed.

Lemma complete_alternatives_shape (l : list string) (key style : string)
    (alts : list alternative) :
  _generate_complete_alternatives l key style = Ok alts ->
  exists tv sv,
    List.length tv = List.length l /\
    _add_secondary_dominants l key = Ok sv /\
    alts
    = ((if existsb is_dominant_symbol l
        then [mkAlternative "Versão com Substitutos Tritonais" tv
                "jazz_sophisticated" "intermediário"]
        else [])
       ++ (if existsb is_triad_symbol (List.tl l)
           then [mkAlternative "Versão com Dominantes Secundários" sv
                   "jazz_traditional" "intermediário"]
           else []))%list.
Proof.
  unfold _generate_complete_alternatives. cbv zeta.
  destruct (tritone_version_loop [] l) as [tv|x] eqn:Htv; [|discriminate].
  cbn [bind].
  destruct (_add_secondary_dominants l key) as [sv|x] eqn:Hsv;
    [|discriminate].
  cbn [bind]. intros H. inversion H; subst alts; clear H.
  destruct (tritone_loop_shape l tv Htv) as [Hl He].
  exists tv, sv. split; [exact Hl|]. split; [reflexivity|].
  rewrite He, Bool.negb_involutive.
  assert (Hs : list_eqb sv l = negb (existsb is_triad_symbol (List.tl l))).
  { destruct l as [|first rest].
    - cbn in Hsv. inversion Hsv. reflexivity.
    - exact (secondary_loop_changed rest first sv Hsv). }
  rewrite Hs, Bool.negb_involutive.
  unfold PyList.append.
  destruct (existsb is_dominant_symbol l);
    destruct (existsb is_triad_symbol (List.tl l)); reflexivity.
Qed.

End Alternatives.

(** X21. When _add_secondary_dominants returns, the result is the first
    symbol, which is never parsed, followed by every later symbol in
    order, each preceded by one inserted dominant seventh (a fifth above
    its root in the alphabet) when it parses to a major or minor triad and
    by nothing otherwise; so no chord is lost and the result has between
    n and 2n-1 entries for n symbols. *)
Theorem add_secondary_dominants_shape (first : string)
    (rest res : list string) (key : string) :
  _add_secondary_dominants (first :: rest) key = Ok res ->
  exists inserted,
    Forall2 inserted_for rest inserted /\
    res = first
          :: concat (List.map (fun p => fst p ++ [snd p])%list
                       (combine inserted rest)) /\
    (List.length rest + 1 <= List.length res
     <= 2 * List.length rest + 1)%nat.
Proof.
  intros H.
  destruct (secondary_loop_shape rest first res H) as [inserted [Hf ->]].
  exists inserted. split; [exact Hf|]. split; [reflexivity|].
  pose proof (inserted_length rest inserted Hf). cbn [List.length]. lia.
Qed.

Lemma add_secondary_dominants_shape_witness :
  exists inserted,
    Forall2 inserted_for ["Am"; "Dm"; "G7"; "C"] inserted /\
    ["C"; "E7"; "Am"; "A7"; "Dm"; "G7"; "G7"; "C"]
    = "C" :: concat (List.map (fun p => fst p ++ [snd p])%list
                       (combine inserted ["Am"; "Dm"; "G7"; "C"])).
Proof.
  destruct (add_secondary_dominants_shape "C" ["Am"; "Dm"; "G7"; "C"]
              ["C"; "E7"; "Am"; "A7"; "Dm"; "G7"; "G7"; "C"] "C" eq_refl)
    as [inserted [Hf [He _]]].
  exists inserted. split; [exact Hf | exact He].
Defined.

(** X22. When _generate_complete_alternatives returns, it offers the
    tritone version exactly when some symbol parses to a dominant seventh
    and the secondary-dominant version exactly when some symbol after the
    first parses to a major or minor triad, in that order and nothing
    else; the tritone version has as many chords as the input, and the
    other one is the result of _add_secondary_dominants. *)
Theorem complete_alternatives_rule (l : list string) (key style : string)
    (alts : list alternative) :
  _generate_complete_alternatives l key style = Ok alts ->
  List.map alt_style alts
  = ((if existsb is_dominant_symbol l then ["jazz_sophisticated"] else [])
     ++ (if existsb is_triad_symbol (List.tl l)
         then ["jazz_traditional"] else []))%list /\
  Forall (fun a =>
            (alt_style a = "jazz_sophisticated" ->
             List.length (alt_progression a) = List.length l) /\
            (alt_style a = "jazz_traditional" ->
             _add_secondary_dominants l key = Ok (alt_progression a)))
         alts.
Proof.
  intros H.
  destruct (complete_alternatives_shape l key style alts H)
    as [tv [sv [Hl [Hs ->]]]].
  split.
  - destruct (existsb is_dominant_symbol l);
      destruct (existsb is_triad_symbol (List.tl l)); reflexivity.
  - destruct (existsb is_dominant_symbol l);
      destruct (existsb is_triad_symbol (List.tl l)); cbn [app];
      repeat constructor; cbn [alt_style alt_progression];
      try discriminate; auto.
Qed.

Lemma complete_alternatives_rule_witness :
  exists alts,
    _generate_complete_alternatives ["Dm7"; "G7"; "C"] "C" "jazz" = Ok alts
    /\ List.map alt_style alts = ["jazz_sophisticated"; "jazz_traditional"].
Proof.
  eexists. split; [reflexivity|].
  exact (proj1 (complete_alternatives_rule ["Dm7"; "G7"; "C"] "C" "jazz"
                  _ eq_refl)).
Defined.

(** * The exercise corrector *)

Import ExerciseCorrector.

Section Corrector.

Lemma quality_eqb_refl (q : ChordQuality.t) : ChordQuality.eqb q q = true.
Proof. now destruct q. Qed.

Lemma quality_eqb_sym (a b : ChordQuality.t) :
  ChordQuality.eqb a b = ChordQuality.eqb b a.
Proof. now destruct a, b. Qed.

Lemma equivalent_refl (a : string) : _is_equivalent_chord a a = true.
Proof.
  unfold _is_equivalent_chord.
  destruct (parse_chord a) as [c|x]; [|apply String.eqb_refl].
  now rewrite String.eqb_refl, quality_eqb_refl.
Qed.

Lemma equivalent_sym (a b : string) :
  _is_equivalent_chord a b = _is_equivalent_chord b a.
Proof.
  unfold _is_equivalent_chord.
  destruct (parse_chord a) as [ca|x], (parse_chord b) as [cb|y];
    try apply String.eqb_sym.
  now rewrite String.eqb_sym, quality_eqb_sym.
Qed.

Lemma equivalent_parsed (a b : string) (ca cb : Chord) :
  parse_chord a = Ok ca -> parse_chord b = Ok cb ->
  (_is_equivalent_chord a b = true
   <-> root ca = root cb /\ quality ca = quality cb).
Proof.
  intros Ha Hb. unfold _is_equivalent_chord. rewrite Ha, Hb.
  rewrite Bool.andb_true_iff, String.eqb_eq, quality_eqb_eq. tauto.
Qed.















End Corrector.

(** X23. _is_equivalent_chord relates every symbol to itself and does not
    depend on the order of its two arguments, but it is not transitive:
    "Cdim" and "C°" are both accepted as equivalent to the unparseable
    "cdim" and not to each other. *)
Theorem equivalent_chord_relation :
  (forall a, _is_equivalent_chord a a = true) /\
  (forall a b, _is_equivalent_chord a b = _is_equivalent_chord b a) /\
  (_is_equivalent_chord "Cdim" "cdim" = true /\
   _is_equivalent_chord "cdim" "C°" = true /\
   _is_equivalent_chord "Cdim" "C°" = false).
Proof.
  split; [exact equivalent_refl|]. split; [exact equivalent_sym|].
  repeat split; vm_compute; reflexivity.
Qed.

(** X24. When both symbols parse, _is_equivalent_chord holds exactly when
    the two chords have the same root and the same quality: extensions
    and the bass play no part, so a slash chord is equivalent to the same
    chord without its bass. *)
Theorem equivalent_ignores_bass :
  (forall a b ca cb,
     parse_chord a = Ok ca -> parse_chord b = Ok cb ->
     (_is_equivalent_chord a b = true
      <-> root ca = root cb /\ quality ca = quality cb)) /\
  (forall r q b,
     is_pitch_class_root r = true ->
     contains "/" q = false ->
     (String.length r = 1 -> begins_accidental q = false) ->
     rstrip q = q ->
     is_pitch_class_root b = true ->
     _is_equivalent_chord (r ++ q) (r ++ q ++ "/" ++ b) = true).
Proof.
  split; [exact equivalent_parsed|].
  intros r q b Hr Hq Ha Hs Hb.
  pose proof (parse_chord_plain r q Hr Hq Ha) as H1.
  pose proof (parse_chord_slash r q b Hr Hq Ha Hb) as H2.
  rewrite Hs in H1.
  apply (proj2 (equivalent_parsed _ _ _ _ H1 H2)). now split.
Qed.

Lemma equivalent_ignores_bass_witness :
  _is_equivalent_chord "C7" "C7/E" = true /\
  (_is_equivalent_chord "G7" "G7(9)" = true
   <-> "G" = "G" /\ ChordQuality.DOMINANT = ChordQuality.DOMINANT).
Proof.
  split.
  - exact (proj2 equivalent_ignores_bass "C" "7" "E" eq_refl eq_refl
             (fun _ => eq_refl) eq_refl eq_refl).
  - exact (proj1 equivalent_ignores_bass "G7" "G7(9)"
             (mkChord "G" ChordQuality.DOMINANT [] None None None)
             (mkChord "G" ChordQuality.DOMINANT ["9"] None None None)
             eq_refl eq_refl).
Defined.



(** * Style detection in the analyzer *)

Section Style.

Ltac small_z d :=
  destruct d as [|d|d]; try reflexivity;
  do 3 (try (destruct d as [d|d|]; try reflexivity)).

Lemma letter_of_function (d : Z) :
  Function.value
    match d with
    | 0 => Function.TONIC
    | 5 => Function.SUBDOMINANT
    | 7 => Function.DOMINANT
    | _ => Function.SUBSTITUTE
    end%Z
  = function_letter d.
Proof. small_z d. Qed.

Lemma letter_S (d : Z) : String.eqb (function_letter d) "S" = (d =? 5)%Z.
Proof. small_z d. Qed.

Lemma letter_D (d : Z) : String.eqb (function_letter d) "D" = (d =? 7)%Z.
Proof. small_z d. Qed.

Lemma letter_T (d : Z) : String.eqb (function_letter d) "T" = (d =? 0)%Z.
Proof. small_z d. Qed.

Lemma letter_sub (d : Z) :
  String.eqb (function_letter d) "sub" = off_degree d.
Proof. small_z d. Qed.

Lemma is_jazz_loop_step (f0 f1 f2 : string) (r : list string) :
  is_jazz_loop (f0 :: f1 :: f2 :: r)
  = if String.eqb f0 "S" && String.eqb f1 "D" && String.eqb f2 "T"
    then true else is_jazz_loop (f1 :: f2 :: r).
Proof. reflexivity. Qed.

Lemma has_IV_V_I_step (d0 d1 d2 : Z) (r : list Z) :
  has_IV_V_I (d0 :: d1 :: d2 :: r)
  = if (d0 =? 5)%Z && (d1 =? 7)%Z && (d2 =? 0)%Z
    then true else has_IV_V_I (d1 :: d2 :: r).
Proof. reflexivity. Qed.

Lemma jazz_loop_letters (ds : list Z) :
  is_jazz_loop (List.map function_letter ds) = has_IV_V_I ds.
Proof.
  induction ds as [|d0 r IH]; [reflexivity|].
  destruct r as [|d1 [|d2 r']]; [reflexivity|reflexivity|].
  change (List.map function_letter (d0 :: d1 :: d2 :: r'))
    with (function_letter d0
          :: List.map function_letter (d1 :: d2 :: r')).
  change (List.map function_letter (d1 :: d2 :: r'))
    with (function_letter d1 :: function_letter d2
          :: List.map function_letter r') at 1.
  rewrite is_jazz_loop_step, has_IV_V_I_step.
  rewrite letter_S, letter_D, letter_T.
  change (function_letter d1 :: function_letter d2
          :: List.map function_letter r')
    with (List.map function_letter (d1 :: d2 :: r')).
  now rewrite IH.
Qed.

Lemma modal_letters (ds : list Z) :
  existsb (fun f => String.eqb f "sub") (List.map function_letter ds)
  = existsb off_degree ds.
Proof.
  induction ds as [|d r IH]; [reflexivity|].
  cbn [List.map existsb]. now rewrite letter_sub, IH.
Qed.

Lemma entry_intervals (symbols : list string) (key : string)
    (analysis : list analysis_entry) :
  analyze_chord_progression symbols key = Ok analysis ->
  exists ds,
    Forall2 (interval_of key) symbols ds /\
    List.map function_value analysis = List.map function_letter ds.
Proof.
  intros H. pose proof (analyze_entries symbols key analysis H) as He.
  clear H.
  induction He as [|s e l l' [_ [c Hc]] _ [ds [Hf Hm]]].
  - exists []. split; [constructor|reflexivity].
  - destruct Hc as [Hp [_ [_ [_ [_ [Hn [_ [_ [Hv _]]]]]]]]].
    unfold _get_roman_numeral in Hn.
    destruct (index chromatic_notes key) as [i|x] eqn:Hi; [|discriminate].
    cbn [bind] in Hn.
    destruct (index chromatic_notes (root c)) as [j|x] eqn:Hj;
      [|discriminate].
    cbn [bind] in Hn. cbv zeta in Hn.
    assert (Hd : (0 <= (j - i) mod 12 < 12)%Z)
      by (apply Z.mod_pos_bound; lia).
    pose proof (function_of_interval _ (quality c) Hd) as Hfi.
    cbv zeta in Hfi.
    exists (((j - i) mod 12)%Z :: ds). split.
    + constructor; [|exact Hf]. exists c, i, j. now repeat split.
    + cbn [List.map]. rewrite Hm, Hv. f_equal.
      rewrite <- letter_of_function, <- Hfi.
      destruct (quality c); inversion Hn; reflexivity.
Qed.

Lemma style_by_intervals (symbols : list string) (key : string)
    (analysis : list analysis_entry) :
  analyze_chord_progression symbols key = Ok analysis ->
  exists ds,
    Forall2 (interval_of key) symbols ds /\
    _is_jazz_progression analysis = has_IV_V_I ds /\
    _has_modal_characteristics analysis = existsb off_degree ds.
Proof.
  intros H. destruct (entry_intervals symbols key analysis H)
    as [ds [Hf Hm]].
  exists ds. split; [exact Hf|]. split.
  - unfold _is_jazz_progression. cbv zeta. rewrite Hm.
    apply jazz_loop_letters.
  - unfold _has_modal_characteristics. rewrite <- modal_letters, <- Hm.
    clear. induction analysis as [|e r IH]; [reflexivity|].
    cbn [List.map existsb]. now rewrite IH.
Qed.

End Style.

(** X26. On an analysis produced by analyze_chord_progression, the two
    style tests of the analyzer depend only on how far each root stands
    above the key: _is_jazz_progression holds exactly when three roots in
    a row stand 5, 7 and 0 semitones above it (a IV-V-I by roots, whatever
    the qualities), and _has_modal_characteristics holds exactly when some
    root is not 0, 5 or 7 semitones above it. *)
Theorem style_detection_by_roots (symbols : list string) (key : string)
    (analysis : list analysis_entry) :
  analyze_chord_progression symbols key = Ok analysis ->
  exists ds,
    Forall2 (interval_of key) symbols ds /\
    _is_jazz_progression analysis = has_IV_V_I ds /\
    _has_modal_characteristics analysis = existsb off_degree ds.
Proof. apply style_by_intervals. Qed.

Lemma style_detection_by_roots_witness :
  exists analysis ds,
    analyze_chord_progression ["F"; "G7"; "C"] "C" = Ok analysis /\
    Forall2 (interval_of "C") ["F"; "G7"; "C"] ds /\
    _is_jazz_progression analysis = has_IV_V_I ds.
Proof.
  eexists.
  destruct (style_detection_by_roots ["F"; "G7"; "C"] "C" _ eq_refl)
    as [ds [Hf [Hj _]]].
  exists ds. split; [reflexivity|]. split; [exact Hf | exact Hj].
Defined.
